(** * KVDK index layer: hash table hints, skip list nodes, splices and the
      sorted iterator.

    A shallow embedding of [engine/hash_table.hpp] and [engine/skiplist.hpp].
    Machine integers are [Z] with their wrap-around written out, raw pointers
    are addresses in [Z] with [nullptr = 0], the volatile heap and the
    persistent memory are finite maps indexed by address. *)

From Stdlib Require Import ZArith Lia String Ascii List Bool Sorted.
From Stdlib Require Import OrderedTypeEx.
From stdpp Require Import base option gmap strings sorting.

Local Open Scope Z_scope.

(** ** Machine integers and keys *)

Definition wrap (w x : Z) : Z := x mod 2 ^ w.
Definition u16 (x : Z) : Z := wrap 16 x.
Definition u32 (x : Z) : Z := wrap 32 x.
Definition u64 (x : Z) : Z := wrap 64 x.

Definition nullptr : Z := 0.

(** A [Slice] is a byte string; [size] is [Slice::size()], a [size_t]. *)
Definition Slice : Type := string.
Definition size (s : Slice) : Z := Z.of_nat (String.length s).

(** ** The hash table: bucket and shard selection *)

Module HashTable.

(** Modelled from the spec: the [HashEntry] struct is declared in a header
    that is not part of the sources; section 3 gives it as a 16-byte slot. *)
Definition sizeof_HashEntry : Z := 16.

Record KeyHashHint := mkHint {
  key_hash_value : Z;   (* uint64_t *)
  bucket : Z;           (* uint32_t *)
  slot : Z;             (* uint32_t *)
  spin : Z              (* index of the Slot whose spin mutex is taken *)
}.

(** The members the constructor computes, in declaration order. *)
Record t := mkTable {
  hash_bucket_entries_len : Z;
  num_hash_buckets_ : Z;        (* const uint64_t *)
  slot_grain_ : Z;              (* const uint32_t *)
  hash_bucket_size_ : Z;        (* const uint32_t *)
  num_entries_per_bucket_ : Z;  (* const uint64_t *)
  slots_len : Z
}.

(** [HashTable::HashTable]: [hash_bucket_size_ - 8] is an unsigned 32-bit
    subtraction, the quotient by [sizeof(HashEntry)] is taken in [size_t].
    The code divides by [slot_grain] as it is: a grain of 0 traps there,
    and [slots_len] is meaningful for [0 < slot_grain] only. *)
Definition new (hash_bucket_num hash_bucket_size slot_grain : Z) : t :=
  let num_hash_buckets := u64 hash_bucket_num in
  let grain := u32 slot_grain in
  let bucket_size := u32 hash_bucket_size in
  {| hash_bucket_entries_len := u64 hash_bucket_num;
     num_hash_buckets_ := num_hash_buckets;
     slot_grain_ := grain;
     hash_bucket_size_ := bucket_size;
     num_entries_per_bucket_ := u64 (u32 (bucket_size - 8)) / sizeof_HashEntry;
     slots_len := u64 hash_bucket_num / u32 slot_grain |}.

(** [get_bucket_num]: a 64-bit mask, returned as [uint32_t]. *)
Definition get_bucket_num (ht : t) (key_hash_value : Z) : Z :=
  u32 (Z.land key_hash_value (u64 (num_hash_buckets_ ht - 1))).

(** [get_slot_num]: unsigned 32-bit division. *)
Definition get_slot_num (ht : t) (bucket : Z) : Z := bucket / slot_grain_ ht.

Section Hint.
(** [hash_str] comes from a header outside the sources: any 64-bit hash. *)
Variable hash_str : Slice -> Z.

Definition GetHint (ht : t) (key : Slice) : KeyHashHint :=
  let h := hash_str key in
  let b := get_bucket_num ht h in
  let s := get_slot_num ht b in
  {| key_hash_value := h; bucket := b; slot := s; spin := s |}.
End Hint.

End HashTable.

(** ** Operations that may fault

    A read through a dangling or null pointer, a failed [assert] and a loop
    that outlives its fuel are kept apart from a normal return. *)

Inductive result (A : Type) : Type :=
  | Ok (a : A)
  | Fault
  | OutOfFuel.
Arguments Ok {A} a.
Arguments Fault {A}.
Arguments OutOfFuel {A}.

#[global] Instance result_ret : MRet result := fun A a => Ok a.
#[global] Instance result_bind : MBind result := fun A B f m =>
  match m with
  | Ok a => f a
  | Fault => Fault
  | OutOfFuel => OutOfFuel
  end.

Definition load {A : Type} (o : option A) : result A :=
  match o with
  | Some a => Ok a
  | None => Fault
  end.

(** Modelled from the spec: [Slice::compare] lives in the public slice header,
    which is not part of the sources; the three-way bytewise comparison of
    keys (a proper prefix compares smaller).  Only its sign is ever used. *)
Definition Slice_compare (a b : Slice) : Z :=
  match String.compare a b with
  | Lt => -1
  | Eq => 0
  | Gt => 1
  end.

(** ** Records on persistent memory *)

Module DLDataEntry.

(** Modelled from the spec: [DLDataEntry] and the record type tags are
    declared in data_entry.hpp, which is not part of the sources.  Section 3
    lists the tags (string-put, string-delete, sorted-put, sorted-delete) and
    section 6 the distinguished tag of a collection header; a sorted record
    carries its two neighbour offsets, its key and its value. *)
Inductive DataEntryType :=
  | STRING_DATA_RECORD
  | STRING_DELETE_RECORD
  | SORTED_DATA_RECORD
  | SORTED_DELETE_RECORD
  | SORTED_HEADER_RECORD.

#[global] Instance DataEntryType_eq_dec : EqDecision DataEntryType.
Proof. solve_decision. Defined.

Record t := mkEntry {
  type : DataEntryType;
  prev : Z;      (* uint64_t offset *)
  next : Z;      (* uint64_t offset *)
  Key : Slice;
  Value : Slice
}.

(** Reading the fields of the record at an address of persistent memory. *)
Definition deref (pm : gmap Z t) (p : Z) : result t :=
  if p =? nullptr then Fault else load (pm !! p).

End DLDataEntry.

(** Persistent memory, by address of the record. *)
Abbreviation PMem := (gmap Z DLDataEntry.t).

(** ** Skip list nodes on the volatile heap *)

Module SkiplistNode.

Definition kCacheLevel : Z := 3.

(** [sizeof(SkiplistNode)] on LP64: the zero-length [next] array, the 8-byte
    [data_entry] pointer, two [uint16_t] and 4 bytes of tail padding (the
    "4B" of the format comment), before the zero-length [cached_key]. *)
Definition sizeof_SkiplistNode : Z := 16.

Record t := mkNode {
  data_entry : Z;        (* DLDataEntry* *)
  height : Z;            (* uint16_t *)
  cached_key_size : Z;   (* uint16_t *)
  cached_key : Slice     (* the bytes stored from [cached_key] on *)
}.

(** The volatile heap: the 8-byte atomic pointer cells by address, and the
    node headers by base address. *)
Record Heap := mkHeap {
  cells : gmap Z Z;
  nodes : gmap Z t
}.

Definition empty_heap : Heap := {| cells := ∅; nodes := ∅ |}.

(** Reading the fields of [*node]. *)
Definition deref (hp : Heap) (node : Z) : result t :=
  if node =? nullptr then Fault else load (nodes hp !! node).

(** The test of [MaybeCacheKey]. *)
Definition caches_key (height : Z) (key : Slice) : bool :=
  (kCacheLevel <=? height) || (size key <=? 4).

(** [MaybeCacheKey], on a node whose [height] is already set. *)
Definition MaybeCacheKey (node : t) (key : Slice) : t :=
  if caches_key (height node) key then
    {| data_entry := data_entry node; height := height node;
       cached_key_size := u16 (size key); cached_key := key |}
  else
    {| data_entry := data_entry node; height := height node;
       cached_key_size := 0; cached_key := cached_key node |}.

(** The [size] local of [NewNode], a [size_t]. *)
Definition NewNode_size (key : Slice) (l : Z) : Z :=
  if (kCacheLevel <=? l) && (4 <? size key) then
    u64 (sizeof_SkiplistNode + 8 * l + size key - 4)
  else
    u64 (sizeof_SkiplistNode + 8 * l).

(** [&next[-l]]: the cells are 8 bytes wide and [next] is at offset 0. *)
Definition next_addr (node l : Z) : Z := node + 8 * (- l).

Definition Next (hp : Heap) (node l : Z) : result Z :=
  load (cells hp !! next_addr node l).

Definition RelaxedNext (hp : Heap) (node l : Z) : result Z :=
  if 0 <? l then load (cells hp !! next_addr node l) else Fault.

Definition SetNext (hp : Heap) (node l x : Z) : result Heap :=
  if 0 <? l then
    Ok {| cells := <[next_addr node l := x]> (cells hp); nodes := nodes hp |}
  else Fault.

Definition RelaxedSetNext (hp : Heap) (node l x : Z) : result Heap :=
  SetNext hp node l x.

Definition CASNext (hp : Heap) (node l expected x : Z) : result (bool * Heap) :=
  if 0 <? l then
    cur ← load (cells hp !! next_addr node l);
    if cur =? expected then
      Ok (true, {| cells := <[next_addr node l := x]> (cells hp);
                   nodes := nodes hp |})
    else Ok (false, hp)
  else Fault.

Definition Height (hp : Heap) (node : Z) : result Z :=
  n ← deref hp node; Ok (height n).

Definition heap_space_start (hp : Heap) (node : Z) : result Z :=
  n ← deref hp node; Ok (node - height n * 8).

(** Modelled from the spec: [SkiplistNode::Key] is only declared in the
    header.  Section 4.3: comparison uses the cached key when there is one,
    a node without cached key dereferences its record on PMem. *)
Definition Key (pm : PMem) (hp : Heap) (node : Z) : result Slice :=
  n ← deref hp node;
  if 0 <? cached_key_size n then
    Ok (substring 0 (Z.to_nat (cached_key_size n)) (cached_key n))
  else
    e ← DLDataEntry.deref pm (data_entry n); Ok (DLDataEntry.Key e).

Section Alloc.
(** [malloc]: the address answered to a request of a given size,
    [nullptr] when the allocation fails. *)
Variable malloc : Z -> Z.

(** [NewNode]: [l] is the [uint16_t] height.  The fields of the fresh
    block hold no value before the three assignments.  The assignments are
    taken to reach memory, as they do in the block that [malloc] returned;
    [Trapping.NewNode] below checks them, and is the one to use where
    [malloc] answers null. *)
Definition NewNode (hp : Heap) (key : Slice) (entry_on_pmem : Z) (l : Z)
    : Z * Heap :=
  let size := NewNode_size key l in
  let space := malloc size in
  let node := space + 8 * l in
  if node =? nullptr then (node, hp)
  else
    let fresh := {| data_entry := entry_on_pmem; height := l;
                    cached_key_size := 0; cached_key := EmptyString |} in
    (node, {| cells := cells hp;
              nodes := <[node := MaybeCacheKey fresh key]> (nodes hp) |}).
End Alloc.

End SkiplistNode.

(** ** The skip list *)

Module Skiplist.

(** [struct Splice]: the two arrays hold [kMaxHeight + 1] pointers and are
    not initialised; a map keeps the cells written so far.  The two record
    pointers are [None] until they are assigned. *)
Record Splice := mkSplice {
  nexts : gmap Z Z;
  prevs : gmap Z Z;
  prev_data_entry : option Z;
  next_data_entry : option Z
}.

Definition fresh_splice : Splice :=
  {| nexts := ∅; prevs := ∅; prev_data_entry := None; next_data_entry := None |}.

Definition set_nexts (sp : Splice) (l x : Z) : Splice :=
  {| nexts := <[l := x]> (nexts sp); prevs := prevs sp;
     prev_data_entry := prev_data_entry sp;
     next_data_entry := next_data_entry sp |}.

Definition set_prevs (sp : Splice) (l x : Z) : Splice :=
  {| nexts := nexts sp; prevs := <[l := x]> (prevs sp);
     prev_data_entry := prev_data_entry sp;
     next_data_entry := next_data_entry sp |}.

(** The members of [class Skiplist] that the index code reads. *)
Record t := mkSkiplist {
  header_ : Z;       (* SkiplistNode* *)
  name_ : string;
  id_ : Z
}.

Definition header (sl : t) : Z := header_ sl.

(** [UserKey]: the key without its 8 leading bytes.  On a key shorter than
    8 bytes the size [size() - 8] wraps around and the slice reaches
    outside the key. *)
Definition UserKey (skiplist_key : Slice) : result Slice :=
  if 8 <=? size skiplist_key then
    Ok (substring 8 (String.length skiplist_key - 8) skiplist_key)
  else Fault.

Section Params.
(** [kMaxHeight = MAX_SKIPLIST_LEVEL], a macro of a header outside the
    sources. *)
Variable kMaxHeight : Z.

(** [fast_random], from utils.hpp: a generator with its state. *)
Variable rng : Type.
Variable fast_random : rng -> Z * rng.

(** The loop of [RandomHeight]; [fast_random] is only called while
    [height < kMaxHeight]. *)
Fixpoint RandomHeight_loop (fuel : nat) (height : Z) (s : rng)
    : result (Z * rng) :=
  match fuel with
  | O => OutOfFuel
  | S fuel' =>
      if height <? kMaxHeight then
        let (r, s') := fast_random s in
        if negb (Z.land r 1 =? 0) then RandomHeight_loop fuel' (height + 1) s'
        else Ok (height, s')
      else Ok (height, s)
  end.

Definition RandomHeight (s : rng) : result (Z * rng) :=
  RandomHeight_loop (S (Z.to_nat kMaxHeight)) 0 s.

(** A cell of [nexts] or [prevs]. *)
Definition cell (a : gmap Z Z) (l : Z) : result Z :=
  if (0 <=? l) && (l <=? kMaxHeight) then load (a !! l) else Fault.

(** [Splice::Recompute]. *)
Fixpoint Recompute (fuel : nat) (pm : PMem) (hp : SkiplistNode.Heap)
    (sp : Splice) (key : Slice) (l : Z) : result Splice :=
  match fuel with
  | O => OutOfFuel
  | S fuel' =>
      p ← cell (prevs sp) l;
      tmp ← SkiplistNode.Next hp p l;
      if tmp =? nullptr then Ok (set_nexts sp l nullptr)
      else
        k ← SkiplistNode.Key pm hp tmp;
        let cmp := Slice_compare key k in
        if 0 <? cmp then Recompute fuel' pm hp (set_prevs sp l tmp) key l
        else Ok (set_nexts sp l tmp)
  end.

(** Modelled from the spec: the body of [Skiplist::Seek] is in
    skiplist.cpp, which is not part of the sources.  Section 4.3: start
    at the header at level [H_max]; at each level advance [prev] while
    the next key is strictly less than the target, record [prev] and
    [next] at that level and drop down; terminate at level 1.  The step
    of a level is the loop of [Recompute].  The iterator is positioned
    "via skip-list": the two record pointers of the splice are the
    records of the level-1 window. *)
Fixpoint Seek_levels (fuel : nat) (pm : PMem) (hp : SkiplistNode.Heap)
    (level : nat) (prev : Z) (sp : Splice) (key : Slice) : result Splice :=
  match level with
  | O => Ok sp
  | S below =>
      let i := Z.of_nat level in
      sp' ← Recompute fuel pm hp (set_prevs sp i prev) key i;
      prev' ← cell (prevs sp') i;
      Seek_levels fuel pm hp below prev' sp' key
  end.

Definition Seek (fuel : nat) (pm : PMem) (hp : SkiplistNode.Heap)
    (sl : t) (key : Slice) (sp : Splice) : result Splice :=
  sp' ← Seek_levels fuel pm hp (Z.to_nat kMaxHeight) (header_ sl) sp key;
  p ← cell (prevs sp') 1;
  n ← cell (nexts sp') 1;
  pn ← SkiplistNode.deref hp p;
  ne ← (if n =? nullptr then Ok nullptr
        else nn ← SkiplistNode.deref hp n; Ok (SkiplistNode.data_entry nn));
  Ok {| nexts := nexts sp'; prevs := prevs sp';
        prev_data_entry := Some (SkiplistNode.data_entry pn);
        next_data_entry := Some ne |}.
End Params.

End Skiplist.

(** ** The iterator of a sorted collection *)

Module SortedIterator.

Record t := mkIter {
  skiplist_ : Skiplist.t;
  current : Z            (* DLDataEntry* *)
}.

Definition set_current (it : t) (c : Z) : t :=
  {| skiplist_ := skiplist_ it; current := c |}.

Definition Valid (it : t) : bool := negb (current it =? nullptr).

Definition is_delete (e : DLDataEntry.t) : bool :=
  bool_decide (DLDataEntry.type e = DLDataEntry.SORTED_DELETE_RECORD).

Section Allocator.
(** [PMEMAllocator::offset2addr], from pmem_allocator.hpp. *)
Variable offset2addr : Z -> Z.
Variable kMaxHeight : Z.

Definition Seek (fuel : nat) (pm : PMem) (hp : SkiplistNode.Heap)
    (it : t) (key : Slice) : result t :=
  sp ← Skiplist.Seek kMaxHeight fuel pm hp (skiplist_ it) key
         Skiplist.fresh_splice;
  c ← load (Skiplist.next_data_entry sp);
  Ok (set_current it c).

Definition SeekToFirst (pm : PMem) (hp : SkiplistNode.Heap) (it : t)
    : result t :=
  h ← SkiplistNode.deref hp (Skiplist.header (skiplist_ it));
  e ← DLDataEntry.deref pm (SkiplistNode.data_entry h);
  Ok (set_current it (offset2addr (DLDataEntry.next e))).

(** The [do ... while (current && current->type == SORTED_DELETE_RECORD)]
    of [Next]. *)
Fixpoint Next_loop (fuel : nat) (pm : PMem) (cur : Z) : result Z :=
  match fuel with
  | O => OutOfFuel
  | S fuel' =>
      e ← DLDataEntry.deref pm cur;
      let cur' := offset2addr (DLDataEntry.next e) in
      if cur' =? nullptr then Ok cur'
      else
        e' ← DLDataEntry.deref pm cur';
        if is_delete e' then Next_loop fuel' pm cur' else Ok cur'
  end.

Definition Next (fuel : nat) (pm : PMem) (it : t) : result (bool * t) :=
  if negb (Valid it) then Ok (false, it)
  else
    c ← Next_loop fuel pm (current it);
    Ok (negb (c =? nullptr), set_current it c).

(** The [do ... while (current->type == SORTED_DELETE_RECORD)] of
    [Prev]: no null test. *)
Fixpoint Prev_loop (fuel : nat) (pm : PMem) (cur : Z) : result Z :=
  match fuel with
  | O => OutOfFuel
  | S fuel' =>
      e ← DLDataEntry.deref pm cur;
      let cur' := offset2addr (DLDataEntry.prev e) in
      e' ← DLDataEntry.deref pm cur';
      if is_delete e' then Prev_loop fuel' pm cur' else Ok cur'
  end.

Definition Prev (fuel : nat) (pm : PMem) (hp : SkiplistNode.Heap) (it : t)
    : result (bool * t) :=
  if negb (Valid it) then Ok (false, it)
  else
    c ← Prev_loop fuel pm (current it);
    h ← SkiplistNode.deref hp (Skiplist.header (skiplist_ it));
    if c =? SkiplistNode.data_entry h then Ok (false, set_current it nullptr)
    else Ok (true, set_current it c).

Definition Key (pm : PMem) (it : t) : result string :=
  if negb (Valid it) then Ok EmptyString
  else e ← DLDataEntry.deref pm (current it);
       Skiplist.UserKey (DLDataEntry.Key e).

Definition Value (pm : PMem) (it : t) : result string :=
  if negb (Valid it) then Ok EmptyString
  else e ← DLDataEntry.deref pm (current it);
       Ok (DLDataEntry.Value e).
End Allocator.

End SortedIterator.

(** ** Chains of records on persistent memory *)

Section Chains.
Variable offset2addr : Z -> Z.

(** [walk f pm p rs q]: following the offset [f] ([next] or [prev]) from
    the record at [p] passes over the records at [rs], in this order, and
    then arrives at the pointer [q]. *)
Inductive walk (f : DLDataEntry.t -> Z) (pm : PMem) : Z -> list Z -> Z -> Prop :=
  | walk_arrive p e q :
      p <> nullptr -> pm !! p = Some e -> offset2addr (f e) = q ->
      walk f pm p [] q
  | walk_step p e r rs q :
      p <> nullptr -> pm !! p = Some e -> offset2addr (f e) = r ->
      walk f pm r rs q ->
      walk f pm p (r :: rs) q.

Definition delete_marked (pm : PMem) (r : Z) : Prop :=
  exists e, pm !! r = Some e /\
            DLDataEntry.type e = DLDataEntry.SORTED_DELETE_RECORD.

Definition not_delete_marked (pm : PMem) (r : Z) : Prop :=
  r <> nullptr /\
  exists e, pm !! r = Some e /\
            DLDataEntry.type e <> DLDataEntry.SORTED_DELETE_RECORD.

(** The chain of a sorted collection as [Next], [Prev] and [SeekToFirst]
    use it: the header record at [hdr], then the records [rs] in order;
    [next] of the last record is an offset of the null pointer, [prev] of
    the first record is the offset of the header. *)
Record sorted_chain (pm : PMem) (hdr : Z) (rs : list Z) : Prop := {
  chain_header :
    hdr <> nullptr /\
    exists e, pm !! hdr = Some e /\
      DLDataEntry.type e = DLDataEntry.SORTED_HEADER_RECORD /\
      offset2addr (DLDataEntry.next e) = default nullptr (rs !! 0%nat);
  chain_records :
    forall (j : nat) (r : Z), rs !! j = Some r ->
      r <> nullptr /\
      exists e, pm !! r = Some e /\
        (DLDataEntry.type e = DLDataEntry.SORTED_DATA_RECORD \/
         DLDataEntry.type e = DLDataEntry.SORTED_DELETE_RECORD) /\
        offset2addr (DLDataEntry.next e) = default nullptr (rs !! S j) /\
        offset2addr (DLDataEntry.prev e) =
          match j with
          | O => hdr
          | S j' => default nullptr (rs !! j')
          end
}.
End Chains.

Definition is_live (pm : PMem) (r : Z) : bool :=
  match pm !! r with
  | Some e => negb (SortedIterator.is_delete e)
  | None => false
  end.

(** The first record of a list that is not delete-marked. *)
Fixpoint first_live (pm : PMem) (rs : list Z) : option Z :=
  match rs with
  | [] => None
  | r :: rs' => if is_live pm r then Some r else first_live pm rs'
  end.

(** Where the iterator rests after a step that looked for [target]. *)
Definition step_to (it : SortedIterator.t) (target : option Z)
    : bool * SortedIterator.t :=
  match target with
  | Some q => (true, SortedIterator.set_current it q)
  | None => (false, SortedIterator.set_current it nullptr)
  end.


(** ** Levels of a skip list *)

(** [level_chain hp l p cs]: at level [l] the nodes [cs] follow the node [p],
    in this order, and the last of them points to null. *)
Inductive level_chain (hp : SkiplistNode.Heap) (l : Z) : Z -> list Z -> Prop :=
  | level_end p :
      SkiplistNode.Next hp p l = Ok nullptr -> level_chain hp l p []
  | level_link p q cs :
      SkiplistNode.Next hp p l = Ok q -> q <> nullptr ->
      level_chain hp l q cs ->
      level_chain hp l p (q :: cs).

(** The key of node [n] compares strictly less than [k], as [Recompute]
    tests it: [Slice::compare(k, n->Key()) > 0]. *)
Definition below (pm : PMem) (hp : SkiplistNode.Heap) (k : Slice) (n : Z) : Prop :=
  exists kn, SkiplistNode.Key pm hp n = Ok kn /\ 0 < Slice_compare k kn.

(** The key of node [n] compares greater than or equal to [k]. *)
Definition not_below (pm : PMem) (hp : SkiplistNode.Heap) (k : Slice) (n : Z)
    : Prop :=
  exists kn, SkiplistNode.Key pm hp n = Ok kn /\ Slice_compare k kn <= 0.

Definition node_lt (pm : PMem) (hp : SkiplistNode.Heap) (a b : Z) : Prop :=
  exists ka kb, SkiplistNode.Key pm hp a = Ok ka /\
                SkiplistNode.Key pm hp b = Ok kb /\
                Slice_compare ka kb < 0.

(** Invariant 3 along a chain: every node has a key and the keys strictly
    ascend. *)
Definition ascending (pm : PMem) (hp : SkiplistNode.Heap) (cs : list Z) : Prop :=
  Forall (fun n => exists kn, SkiplistNode.Key pm hp n = Ok kn) cs /\
  StronglySorted (node_lt pm hp) cs.

(** The record a node stands for. *)
Definition record_of (hp : SkiplistNode.Heap) (n : Z) : Z :=
  match SkiplistNode.deref hp n with
  | Ok nd => SkiplistNode.data_entry nd
  | _ => nullptr
  end.

(** A skip list with a stable topology: [levels i] is the chain of level
    [i] from the header, the chain of a level is contained in the chain of
    the level below, the keys ascend along level 1, and every node of level
    1 stands for a record that holds the key of the node. *)
Record skiplist_wf (kMaxHeight : Z) (pm : PMem) (hp : SkiplistNode.Heap)
    (header : Z) (levels : Z -> list Z) : Prop := {
  wf_height : 1 <= kMaxHeight;
  wf_header : exists hn, SkiplistNode.deref hp header = Ok hn;
  wf_chain : forall i, 1 <= i <= kMaxHeight ->
               level_chain hp i header (levels i);
  wf_nested : forall i n, 1 < i <= kMaxHeight ->
                n ∈ levels i -> n ∈ levels (i - 1);
  wf_sorted : ascending pm hp (levels 1);
  wf_records : forall n, n ∈ levels 1 ->
                 exists nd e,
                   SkiplistNode.deref hp n = Ok nd /\
                   DLDataEntry.deref pm (SkiplistNode.data_entry nd) = Ok e /\
                   SkiplistNode.Key pm hp n = Ok (DLDataEntry.Key e)
}.


(** Where the descent of [Seek] stands at level [i]: on the header, or on a
    node of the level whose key is below the target. *)
Definition on_level (pm : PMem) (hp : SkiplistNode.Heap) (header : Z)
    (levels : Z -> list Z) (key : Slice) (i prev : Z) : Prop :=
  prev = header \/ (prev ∈ levels i /\ below pm hp key prev).

(** ** Concrete instances used by the examples *)

(** A generator that returns its state and steps it by one. *)
Definition counter_random (s : Z) : Z * Z := (s, s + 1).

(** A persistent memory of 64-byte blocks mapped at address 4096; the offset
    [2^64 - 1] stands for no record. *)
Definition block_offset2addr (off : Z) : Z :=
  if off =? 2 ^ 64 - 1 then nullptr else 4096 + 64 * off.

Definition no_offset : Z := 2 ^ 64 - 1.

Definition record (ty : DLDataEntry.DataEntryType) (prev next : Z)
    (key value : string) : DLDataEntry.t :=
  {| DLDataEntry.type := ty; DLDataEntry.prev := prev; DLDataEntry.next := next;
     DLDataEntry.Key := key; DLDataEntry.Value := value |}.

(** The header node of the example collections: a node at address 1000 for
    the header record at offset 0. *)
Definition demo_list : Skiplist.t :=
  {| Skiplist.header_ := 1000; Skiplist.name_ := "s"; Skiplist.id_ := 1 |}.

Definition demo_header_node : SkiplistNode.t :=
  {| SkiplistNode.data_entry := 4096; SkiplistNode.height := 3;
     SkiplistNode.cached_key_size := 1; SkiplistNode.cached_key := "s" |}.

Definition header_only_heap : SkiplistNode.Heap :=
  {| SkiplistNode.cells := ∅;
     SkiplistNode.nodes := {[ 1000 := demo_header_node ]} |}.

(** Header, then "a" (live), "b" (delete-marked), "c" (live), at offsets
    0, 1, 2, 3; keys carry the 8-byte collection prefix. *)
Definition abc_pmem : PMem :=
  {[ 4096 := record DLDataEntry.SORTED_HEADER_RECORD no_offset 1 "s" EmptyString;
     4160 := record DLDataEntry.SORTED_DATA_RECORD 0 2 "00000001a" "va";
     4224 := record DLDataEntry.SORTED_DELETE_RECORD 1 3 "00000001b" EmptyString;
     4288 := record DLDataEntry.SORTED_DATA_RECORD 2 no_offset "00000001c" "vc" ]}.

(** A key of 65536 bytes. *)
Definition long_key : Slice := string_of_list_ascii (repeat "k"%char (2 ^ 16)%nat).

(** An allocator that answers one fixed address. *)
Definition answer (addr : Z) : Z -> Z := fun _ => addr.

(** The collection "a", "c", "e", "g", each key behind the prefix [pre]:
    header node at 1000 (height 3) and the nodes of the four records at
    2000, 3000, 4000, 5000 with heights 1, 3, 1, 2, all built by [NewNode]. *)
Definition aceg_nodes (pre : string) : SkiplistNode.Heap :=
  let hp := snd (SkiplistNode.NewNode (answer 976) SkiplistNode.empty_heap
                   "s" 4096 3) in
  let hp := snd (SkiplistNode.NewNode (answer 1992) hp (pre ++ "a")%string 4160 1) in
  let hp := snd (SkiplistNode.NewNode (answer 2976) hp (pre ++ "c")%string 4224 3) in
  let hp := snd (SkiplistNode.NewNode (answer 3992) hp (pre ++ "e")%string 4288 1) in
  snd (SkiplistNode.NewNode (answer 4984) hp (pre ++ "g")%string 4352 2).

Fixpoint link_all (links : list (Z * Z * Z)) (hp : SkiplistNode.Heap)
    : result SkiplistNode.Heap :=
  match links with
  | [] => Ok hp
  | (n, l, x) :: rest => hp' ← SkiplistNode.SetNext hp n l x; link_all rest hp'
  end.

Definition aceg_links : list (Z * Z * Z) :=
  [ (1000, 3, 3000); (3000, 3, 0);
    (1000, 2, 3000); (3000, 2, 5000); (5000, 2, 0);
    (1000, 1, 2000); (2000, 1, 3000); (3000, 1, 4000); (4000, 1, 5000);
    (5000, 1, 0) ].

Definition aceg_heap (pre : string) : SkiplistNode.Heap :=
  match link_all aceg_links (aceg_nodes pre) with
  | Ok hp => hp
  | _ => SkiplistNode.empty_heap
  end.

Definition aceg_levels (i : Z) : list Z :=
  if i =? 1 then [2000; 3000; 4000; 5000]
  else if i =? 2 then [3000; 5000]
  else if i =? 3 then [3000]
  else [].

(** The records of the collection, all live, at offsets 1 to 4 behind the
    header at offset 0. *)
Definition aceg_pmem (pre : string) : PMem :=
  {[ 4096 := record DLDataEntry.SORTED_HEADER_RECORD no_offset 1 "s" EmptyString;
     4160 := record DLDataEntry.SORTED_DATA_RECORD 0 2 (pre ++ "a")%string "va";
     4224 := record DLDataEntry.SORTED_DATA_RECORD 1 3 (pre ++ "c")%string "vc";
     4288 := record DLDataEntry.SORTED_DATA_RECORD 2 4 (pre ++ "e")%string "ve";
     4352 := record DLDataEntry.SORTED_DATA_RECORD 3 no_offset (pre ++ "g")%string "vg" ]}.

(** The iterator of the collection before any seek. *)
Definition aceg_iterator : SortedIterator.t :=
  {| SortedIterator.skiplist_ := demo_list; SortedIterator.current := nullptr |}.

(** A splice whose level-1 predecessor is the header. *)
Definition header_splice : Skiplist.Splice :=
  Skiplist.set_prevs Skiplist.fresh_splice 1 1000.

(** ** Life cycle of a skip list *)

(** The cells [next[-n] .. next[-1]] of a node, released with its block. *)
Fixpoint drop_cells (n : nat) (node : Z) (c : gmap Z Z) : gmap Z Z :=
  match n with
  | O => c
  | S k => drop_cells k node (delete (SkiplistNode.next_addr node (Z.of_nat n)) c)
  end.

(** [SkiplistNode::DeleteNode]: [free(node->heap_space_start())].  The
    pointer handed to [free] is returned; the block it starts, the pointer
    cells in front of the node and the node itself, is no longer mapped. *)
Definition DeleteNode (hp : SkiplistNode.Heap) (node : Z)
    : result (Z * SkiplistNode.Heap) :=
  n ← SkiplistNode.deref hp node;
  Ok (node - SkiplistNode.height n * 8,
      {| SkiplistNode.cells :=
           drop_cells (Z.to_nat (SkiplistNode.height n)) node
             (SkiplistNode.cells hp);
         SkiplistNode.nodes := delete node (SkiplistNode.nodes hp) |}).

(** The loop [for (int i = 1; i <= kMaxHeight; i++)] of the constructor. *)
Fixpoint Skiplist_init_levels (fuel : nat) (kMaxHeight : Z)
    (hp : SkiplistNode.Heap) (header i : Z) : result SkiplistNode.Heap :=
  match fuel with
  | O => OutOfFuel
  | S fuel' =>
      if i <=? kMaxHeight then
        hp' ← SkiplistNode.RelaxedSetNext hp header i nullptr;
        Skiplist_init_levels fuel' kMaxHeight hp' header (i + 1)
      else Ok hp
  end.

(** [Skiplist::Skiplist]: the header node is a new node of height
    [kMaxHeight] (passed as [uint16_t]) for the header record [h], named by
    the name of the collection; all its levels are set to null.  The
    stores are taken to reach memory, as they do in the block of the header
    node; [Trapping.Skiplist_new] below checks them. *)
Definition Skiplist_new (kMaxHeight : Z) (malloc : Z -> Z)
    (hp : SkiplistNode.Heap) (h : Z) (n : string) (i : Z)
    : result (Skiplist.t * SkiplistNode.Heap) :=
  let created := SkiplistNode.NewNode malloc hp n h (u16 kMaxHeight) in
  hp' ← Skiplist_init_levels (S (Z.to_nat kMaxHeight)) kMaxHeight
          (snd created) (fst created) 1;
  Ok ({| Skiplist.header_ := fst created; Skiplist.name_ := n;
         Skiplist.id_ := u64 i |}, hp').

(** The loop of [Skiplist::~Skiplist]: the level-1 successor is read before
    the node is deleted.  The pointers handed to [free] are collected. *)
Fixpoint Skiplist_delete_loop (fuel : nat) (hp : SkiplistNode.Heap)
    (to_delete : Z) : result (list Z * SkiplistNode.Heap) :=
  match fuel with
  | O => OutOfFuel
  | S fuel' =>
      if to_delete =? nullptr then Ok ([], hp)
      else
        next ← SkiplistNode.Next hp to_delete 1;
        d ← DeleteNode hp to_delete;
        r ← Skiplist_delete_loop fuel' (snd d) next;
        Ok (fst d :: fst r, snd r)
  end.

Definition Skiplist_delete (fuel : nat) (hp : SkiplistNode.Heap)
    (sl : Skiplist.t) : result (list Z * SkiplistNode.Heap) :=
  if Skiplist.header_ sl =? nullptr then Ok ([], hp)
  else Skiplist_delete_loop fuel hp (Skiplist.header_ sl).

(** The start of the block of a node, [heap_space_start], or null. *)
Definition block_start (hp : SkiplistNode.Heap) (node : Z) : Z :=
  match SkiplistNode.deref hp node with
  | Ok n => node - SkiplistNode.height n * 8
  | _ => nullptr
  end.

(** The node base [q] lies outside the pointer cells and the base of the
    node [a]: their blocks do not overlap. *)
Definition outside_block (hp : SkiplistNode.Heap) (a q : Z) : Prop :=
  exists n, SkiplistNode.deref hp a = Ok n /\
            0 <= SkiplistNode.height n /\
            (q < a - 8 * SkiplistNode.height n \/ a < q).

(** The heap after [new->SetNext(l, nxt)] and a successful
    [prev->CASNext(l, nxt, new)]. *)
Definition linked (hp : SkiplistNode.Heap) (l new prev nxt : Z)
    : SkiplistNode.Heap :=
  {| SkiplistNode.cells :=
       <[SkiplistNode.next_addr prev l := new]>
         (<[SkiplistNode.next_addr new l := nxt]> (SkiplistNode.cells hp));
     SkiplistNode.nodes := SkiplistNode.nodes hp |}.

(** A node of the heap with a height that is not negative. *)
Definition is_node (hp : SkiplistNode.Heap) (q : Z) : Prop :=
  exists n, SkiplistNode.deref hp q = Ok n /\ 0 <= SkiplistNode.height n.

(** A node whose pointer array reaches level [l]: the cell [next[-l]]
    lies inside the block of the node. *)
Definition has_level (hp : SkiplistNode.Heap) (l q : Z) : Prop :=
  exists n, SkiplistNode.deref hp q = Ok n /\ l <= SkiplistNode.height n.

(** ** Stores and the memory they reach *)

(** [NewNode] and the constructor of [Skiplist] store through pointers
    computed from the result of [malloc] without looking at that result.
    Here every store is checked against the memory it reaches: the block
    [space, space + size) when [malloc] returned one, and otherwise only
    what is [mapped] at the address anyway.  A store anywhere else is a
    fault, as in a process where the page at address 0 is not mapped. *)
Module Trapping.

Section Memory.
Variable mapped : Z -> bool.

Definition writable (space size a : Z) : bool :=
  (negb (space =? nullptr) && (space <=? a) && (a <? space + size))
  || mapped a.

(** [SkiplistNode::NewNode]; the first store is [node->data_entry = ...]. *)
Definition NewNode (malloc : Z -> Z) (hp : SkiplistNode.Heap) (key : Slice)
    (entry_on_pmem : Z) (l : Z) : result (Z * SkiplistNode.Heap) :=
  let size := SkiplistNode.NewNode_size key l in
  let space := malloc size in
  let node := space + 8 * l in
  if node =? nullptr then Ok (node, hp)
  else if writable space size node then
    let fresh := {| SkiplistNode.data_entry := entry_on_pmem;
                    SkiplistNode.height := l;
                    SkiplistNode.cached_key_size := 0;
                    SkiplistNode.cached_key := EmptyString |} in
    Ok (node, {| SkiplistNode.cells := SkiplistNode.cells hp;
                 SkiplistNode.nodes :=
                   <[node := SkiplistNode.MaybeCacheKey fresh key]>
                     (SkiplistNode.nodes hp) |})
  else Fault.

(** The loop [for (int i = 1; i <= kMaxHeight; i++)] of the constructor;
    [space] and [size] describe the block of the header node. *)
Fixpoint Skiplist_init_levels (space size : Z) (fuel : nat) (kMaxHeight : Z)
    (hp : SkiplistNode.Heap) (header i : Z) : result SkiplistNode.Heap :=
  match fuel with
  | O => OutOfFuel
  | S fuel' =>
      if i <=? kMaxHeight then
        if writable space size (SkiplistNode.next_addr header i) then
          hp' ← SkiplistNode.RelaxedSetNext hp header i nullptr;
          Skiplist_init_levels space size fuel' kMaxHeight hp' header (i + 1)
        else Fault
      else Ok hp
  end.

(** [Skiplist::Skiplist]. *)
Definition Skiplist_new (kMaxHeight : Z) (malloc : Z -> Z)
    (hp : SkiplistNode.Heap) (h : Z) (n : string) (i : Z)
    : result (Skiplist.t * SkiplistNode.Heap) :=
  let size := SkiplistNode.NewNode_size n (u16 kMaxHeight) in
  let space := malloc size in
  created ← NewNode malloc hp n h (u16 kMaxHeight);
  hp' ← Skiplist_init_levels space size (S (Z.to_nat kMaxHeight)) kMaxHeight
          (snd created) (fst created) 1;
  Ok ({| Skiplist.header_ := fst created; Skiplist.name_ := n;
         Skiplist.id_ := u64 i |}, hp').

End Memory.

End Trapping.

(** An ordinary process: nothing is mapped outside the blocks of [malloc]. *)
Definition nothing_mapped : Z -> bool := fun _ => false.

(** The collection "a", "c", "e", "g" with one more node, of height 1 at
    4500 for a record "d" at 4320, not linked yet. *)
Definition aceg_heap_with_d : SkiplistNode.Heap :=
  snd (SkiplistNode.NewNode (answer 4492) (aceg_heap EmptyString) "d" 4320 1).

(** ** Scans with the iterator *)

(** [for (; it.Valid(); it.Next())], collecting the record the iterator
    rests on at each round; [rounds] bounds the number of rounds. *)
Fixpoint collect_forward (offset2addr : Z -> Z) (rounds fuel : nat) (pm : PMem)
    (it : SortedIterator.t) : result (list Z) :=
  match rounds with
  | O => OutOfFuel
  | S rounds' =>
      if SortedIterator.Valid it then
        s ← SortedIterator.Next offset2addr fuel pm it;
        rest ← collect_forward offset2addr rounds' fuel pm (snd s);
        Ok (SortedIterator.current it :: rest)
      else Ok []
  end.

(** [for (; it.Valid(); it.Prev())], likewise. *)
Fixpoint collect_backward (offset2addr : Z -> Z) (rounds fuel : nat) (pm : PMem)
    (hp : SkiplistNode.Heap) (it : SortedIterator.t) : result (list Z) :=
  match rounds with
  | O => OutOfFuel
  | S rounds' =>
      if SortedIterator.Valid it then
        s ← SortedIterator.Prev offset2addr fuel pm hp it;
        rest ← collect_backward offset2addr rounds' fuel pm hp (snd s);
        Ok (SortedIterator.current it :: rest)
      else Ok []
  end.

(** ** Draws of the generator *)

(** The state of the generator after [n] calls, and the [n]-th value drawn
    (counting from 0). *)
Fixpoint rng_after {rng : Type} (fast_random : rng -> Z * rng) (n : nat)
    (s : rng) : rng :=
  match n with
  | O => s
  | S k => rng_after fast_random k (snd (fast_random s))
  end.

Definition draw {rng : Type} (fast_random : rng -> Z * rng) (n : nat) (s : rng)
    : Z :=
  fst (fast_random (rng_after fast_random n s)).

(** ** More concrete instances *)

(** Header, then "a" (delete-marked), "b" (live), "c" (delete-marked),
    "d" (live). *)
Definition dead_first_pmem : PMem :=
  {[ 4096 := record DLDataEntry.SORTED_HEADER_RECORD no_offset 1 "s" EmptyString;
     4160 := record DLDataEntry.SORTED_DELETE_RECORD 0 2 "00000001a" EmptyString;
     4224 := record DLDataEntry.SORTED_DATA_RECORD 1 3 "00000001b" "vb";
     4288 := record DLDataEntry.SORTED_DELETE_RECORD 2 4 "00000001c" EmptyString;
     4352 := record DLDataEntry.SORTED_DATA_RECORD 3 no_offset "00000001d" "vd" ]}.

(** A record whose [prev] offset is the offset of no record. *)
Definition orphan_pmem : PMem :=
  {[ 4160 := record DLDataEntry.SORTED_DATA_RECORD no_offset no_offset
               "00000001a" "va" ]}.

(** A node at 2000 whose level-1 pointer leads back to itself. *)
Definition self_loop_heap : SkiplistNode.Heap :=
  {| SkiplistNode.cells := {[ 1992 := 2000 ]};
     SkiplistNode.nodes :=
       {[ 2000 := {| SkiplistNode.data_entry := 4160; SkiplistNode.height := 1;
                     SkiplistNode.cached_key_size := 1;
                     SkiplistNode.cached_key := "a" |} ]} |}.

Definition self_loop_splice : Skiplist.Splice :=
  Skiplist.set_prevs Skiplist.fresh_splice 1 2000.
(** * Proofs *)

(** ** Machine integers *)

Lemma size_nonneg (s : Slice) : 0 <= size s.
Proof. unfold size. lia. Qed.

Lemma wrap_small (w x : Z) : 0 <= x < 2 ^ w -> wrap w x = x.
Proof. intros H. unfold wrap. apply Z.mod_small. exact H. Qed.

Lemma wrap_range (w x : Z) : 0 <= w -> 0 <= wrap w x < 2 ^ w.
Proof.
  intros Hw. unfold wrap. apply Z.mod_pos_bound.
  apply Z.pow_pos_nonneg; lia.
Qed.

(** *** Facts about masks and shards *)

Lemma land_pow2_mask (h n : Z) :
  0 <= n -> Z.land h (2 ^ n - 1) = h mod 2 ^ n.
Proof.
  intros Hn.
  replace (2 ^ n - 1) with (Z.ones n) by (rewrite Z.ones_equiv; lia).
  apply Z.land_ones. exact Hn.
Qed.

Lemma shard_interval (b s g : Z) :
  0 < g -> (b / g = s <-> s * g <= b < s * g + g).
Proof.
  intros Hg. split.
  - intros <-. pose proof (Z.mul_div_le b g Hg).
    pose proof (Z.mul_succ_div_gt b g Hg). lia.
  - intros [Hlo Hhi]. symmetry. apply (Z.div_unique b g s (b - s * g)); lia.
Qed.

Lemma shard_inside (B g s : Z) :
  0 < g -> 0 <= s < B / g -> s * g + g <= B.
Proof.
  intros Hg [Hs0 Hs].
  assert (Hle : s + 1 <= B / g) by lia.
  pose proof (Z.mul_div_le B g Hg) as Hdiv.
  assert (g * (s + 1) <= g * (B / g)) by (apply Z.mul_le_mono_nonneg_l; lia).
  lia.
Qed.



(** C8. A bucket of [S] bytes that holds at least its 8-byte overflow pointer
    gets [num_entries_per_bucket_ = (S - 8) / 16] at construction: that many
    16-byte entries fit before the pointer, and one more would not. *)
Theorem num_entries_per_bucket_formula (B S G : Z) :
  8 <= S < 2 ^ 32 ->
  let E := HashTable.num_entries_per_bucket_ (HashTable.new B S G) in
  E = (S - 8) / 16 /\
  HashTable.sizeof_HashEntry * E + 8 <= S < HashTable.sizeof_HashEntry * (E + 1) + 8.
Proof.
  intros HS E.
  assert (HE : E = (S - 8) / 16).
  { subst E. unfold HashTable.new, HashTable.num_entries_per_bucket_,
      HashTable.sizeof_HashEntry, u32, u64.
    rewrite (wrap_small 32 S) by lia.
    rewrite (wrap_small 32 (S - 8)) by lia.
    rewrite (wrap_small 64 (S - 8)) by lia. reflexivity. }
  split; [exact HE|].
  unfold HashTable.sizeof_HashEntry. rewrite HE.
  pose proof (Z.mul_div_le (S - 8) 16 ltac:(lia)).
  pose proof (Z.mul_succ_div_gt (S - 8) 16 ltac:(lia)).
  lia.
Qed.

Lemma num_entries_per_bucket_formula_witness :
  8 <= 128 < 2 ^ 32 /\
  HashTable.num_entries_per_bucket_ (HashTable.new 1024 128 64) = (128 - 8) / 16 /\
  HashTable.num_entries_per_bucket_ (HashTable.new 1024 128 64) = 7.
Proof.
  assert (H : 8 <= 128 < 2 ^ 32) by lia.
  split; [exact H|].
  split; [exact (proj1 (num_entries_per_bucket_formula 1024 128 64 H)) | reflexivity].
Defined.

(** Outside these ranges the fixed-width arithmetic shows: a bucket smaller
    than its overflow pointer makes the 32-bit subtraction wrap, and a bucket
    count above [2^32] has its bucket number cut to 32 bits. *)
Remark num_entries_wraps_below_8 :
  HashTable.num_entries_per_bucket_ (HashTable.new 1024 0 64) = 268435455.
Proof. reflexivity. Qed.

Remark bucket_number_is_32_bit :
  HashTable.get_bucket_num (HashTable.new (2 ^ 33) 128 64) (2 ^ 32) = 0 /\
  Z.land (2 ^ 32) (2 ^ 33 - 1) = 2 ^ 32.
Proof. split; reflexivity. Qed.

(** ** Skip list nodes *)

Lemma caches_key_spec (h : Z) (key : Slice) :
  SkiplistNode.caches_key h key = true <-> 3 <= h \/ size key <= 4.
Proof.
  unfold SkiplistNode.caches_key, SkiplistNode.kCacheLevel.
  rewrite orb_true_iff, Z.leb_le, Z.leb_le. reflexivity.
Qed.

Lemma new_node_stores (malloc : Z -> Z) hp key entry l :
  malloc (SkiplistNode.NewNode_size key l) + 8 * l <> nullptr ->
  SkiplistNode.NewNode malloc hp key entry l =
    (malloc (SkiplistNode.NewNode_size key l) + 8 * l,
     {| SkiplistNode.cells := SkiplistNode.cells hp;
        SkiplistNode.nodes :=
          <[malloc (SkiplistNode.NewNode_size key l) + 8 * l :=
              SkiplistNode.MaybeCacheKey
                {| SkiplistNode.data_entry := entry; SkiplistNode.height := l;
                   SkiplistNode.cached_key_size := 0;
                   SkiplistNode.cached_key := EmptyString |} key]>
            (SkiplistNode.nodes hp) |}).
Proof.
  intros Hne. unfold SkiplistNode.NewNode.
  destruct (Z.eqb_spec (malloc (SkiplistNode.NewNode_size key l) + 8 * l) nullptr)
    as [E|E]; [contradiction | reflexivity].
Qed.

Lemma deref_stored (c : gmap Z Z) (m : gmap Z SkiplistNode.t) node n :
  node <> nullptr ->
  SkiplistNode.deref
    {| SkiplistNode.cells := c; SkiplistNode.nodes := <[node := n]> m |} node
  = Ok n.
Proof.
  intros Hne. unfold SkiplistNode.deref.
  destruct (Z.eqb_spec node nullptr); [contradiction|].
  cbn. now rewrite lookup_insert_eq.
Qed.

Lemma substring_full (s : string) : substring 0 (String.length s) s = s.
Proof. induction s as [|c s IH]; cbn; [reflexivity | now rewrite IH]. Qed.



(** A key of 65536 bytes is copied whole but its size does not fit
    [cached_key_size]. *)
Remark cached_key_size_is_16_bit :
  SkiplistNode.cached_key_size
    (SkiplistNode.MaybeCacheKey
       {| SkiplistNode.data_entry := 77; SkiplistNode.height := 3;
          SkiplistNode.cached_key_size := 0;
          SkiplistNode.cached_key := EmptyString |} long_key) = 0 /\
  size long_key = 65536.
Proof. split; vm_compute; reflexivity. Qed.

Lemma new_node_size_formula (key : Slice) (h : Z) :
  0 <= h < 2 ^ 16 -> size key < 2 ^ 63 ->
  SkiplistNode.NewNode_size key h =
    SkiplistNode.sizeof_SkiplistNode + 8 * h +
    (if SkiplistNode.caches_key h key && (4 <? size key)
     then size key - 4 else 0).
Proof.
  intros Hh Hk. pose proof (size_nonneg key) as Hk0.
  unfold SkiplistNode.NewNode_size, SkiplistNode.caches_key,
    SkiplistNode.kCacheLevel, SkiplistNode.sizeof_SkiplistNode, u64.
  destruct (Z.leb_spec 3 h), (Z.ltb_spec 4 (size key)),
    (Z.leb_spec (size key) 4); cbn [andb orb]; try lia;
    rewrite wrap_small by lia; lia.
Qed.

Lemma set_next_reads_back hp node l x :
  0 < l ->
  exists hp',
    SkiplistNode.SetNext hp node l x = Ok hp' /\
    SkiplistNode.Next hp' node l = Ok x /\
    SkiplistNode.nodes hp' = SkiplistNode.nodes hp /\
    (forall l', l' <> l ->
       SkiplistNode.Next hp' node l' = SkiplistNode.Next hp node l').
Proof.
  intros Hl. unfold SkiplistNode.SetNext.
  destruct (Z.ltb_spec 0 l); [|lia].
  eexists. split; [reflexivity|]. unfold SkiplistNode.Next. cbn.
  split; [now rewrite lookup_insert_eq|]. split; [reflexivity|].
  intros l' Hne. rewrite lookup_insert_ne; [reflexivity|].
  unfold SkiplistNode.next_addr. lia.
Qed.

(** C6. [NewNode] asks the allocator for one block of
    [sizeof(SkiplistNode) + 8*h] bytes, plus [key.size - 4] bytes exactly
    when the key is cached and longer than 4 bytes, and returns the address
    [8*h] bytes past the start of the block ([heap_space_start] finds the
    start again).  The pointer of level [l] is the cell at offset [-l] from
    the base; for [1 <= l <= h] it lies inside the block, before the base,
    distinct levels use distinct cells, and a store at a level is read back
    there and leaves the node header and the other levels as they were. *)
Theorem new_node_layout
    (malloc : Z -> Z) (hp : SkiplistNode.Heap) (key : Slice) (entry h : Z) :
  0 <= h < 2 ^ 16 -> size key < 2 ^ 63 ->
  0 < malloc (SkiplistNode.NewNode_size key h) ->
  let sz := SkiplistNode.NewNode_size key h in
  let space := malloc sz in
  let node := fst (SkiplistNode.NewNode malloc hp key entry h) in
  let hp' := snd (SkiplistNode.NewNode malloc hp key entry h) in
  sz = SkiplistNode.sizeof_SkiplistNode + 8 * h +
       (if SkiplistNode.caches_key h key && (4 <? size key)
        then size key - 4 else 0) /\
  node = space + 8 * h /\
  SkiplistNode.heap_space_start hp' node = Ok space /\
  (forall l, 1 <= l <= h ->
     SkiplistNode.next_addr node l = node - 8 * l /\
     space <= SkiplistNode.next_addr node l /\
     SkiplistNode.next_addr node l + 8 <= node) /\
  (forall l l', SkiplistNode.next_addr node l = SkiplistNode.next_addr node l' ->
                l = l') /\
  (forall l x, 1 <= l <= h ->
     exists hp'',
       SkiplistNode.SetNext hp' node l x = Ok hp'' /\
       SkiplistNode.Next hp'' node l = Ok x /\
       SkiplistNode.nodes hp'' = SkiplistNode.nodes hp' /\
       (forall l', l' <> l ->
          SkiplistNode.Next hp'' node l' = SkiplistNode.Next hp' node l')).
Proof.
  intros Hh Hk Hm. cbv zeta.
  rewrite new_node_stores by (unfold nullptr; lia).
  cbn [fst snd].
  split_and!.
  - now apply new_node_size_formula.
  - reflexivity.
  - unfold SkiplistNode.heap_space_start.
    rewrite deref_stored by (unfold nullptr; lia). cbn.
    unfold SkiplistNode.MaybeCacheKey.
    destruct (SkiplistNode.caches_key _ _); cbn; f_equal; lia.
  - intros l Hl. unfold SkiplistNode.next_addr. lia.
  - intros l l'. unfold SkiplistNode.next_addr. lia.
  - intros l x Hl. apply set_next_reads_back. lia.
Qed.

Lemma new_node_layout_witness :
  let malloc := fun sz : Z => 4096 in
  (0 <= 3 < 2 ^ 16 /\ size "persistent"%string < 2 ^ 63 /\
   0 < malloc (SkiplistNode.NewNode_size "persistent"%string 3)) /\
  SkiplistNode.NewNode_size "persistent"%string 3 = 16 + 8 * 3 + (10 - 4) /\
  fst (SkiplistNode.NewNode malloc SkiplistNode.empty_heap "persistent" 77 3)
    = 4096 + 8 * 3.
Proof.
  intros malloc.
  assert (H1 : 0 <= 3 < 2 ^ 16) by lia.
  assert (H2 : size "persistent"%string < 2 ^ 63) by (vm_compute; reflexivity).
  assert (H3 : 0 < malloc (SkiplistNode.NewNode_size "persistent"%string 3))
    by (vm_compute; reflexivity).
  split; [auto|].
  destruct (new_node_layout malloc SkiplistNode.empty_heap
              "persistent" 77 3 H1 H2 H3) as (Hsz & Hnode & _).
  split; [exact Hsz | exact Hnode].
Defined.

(** With a block from [malloc] every store of [NewNode] lies inside the
    block: the checked run and [SkiplistNode.NewNode] agree. *)
Lemma trapping_new_node_agrees
    (mapped : Z -> bool) (malloc : Z -> Z) (hp : SkiplistNode.Heap)
    (key : Slice) (entry l : Z) :
  0 <= l < 2 ^ 16 -> size key < 2 ^ 63 ->
  0 < malloc (SkiplistNode.NewNode_size key l) ->
  Trapping.NewNode mapped malloc hp key entry l
  = Ok (SkiplistNode.NewNode malloc hp key entry l).
Proof.
  intros Hl Hk Hm.
  pose proof (size_nonneg key) as Hs.
  assert (Hsz : 8 * l < SkiplistNode.NewNode_size key l).
  { unfold SkiplistNode.NewNode_size, SkiplistNode.sizeof_SkiplistNode.
    destruct ((SkiplistNode.kCacheLevel <=? l) && (4 <? size key)) eqn:E.
    - apply andb_true_iff in E as [_ E]. apply Z.ltb_lt in E.
      unfold u64. rewrite wrap_small by lia. lia.
    - unfold u64. rewrite wrap_small by lia. lia. }
  unfold Trapping.NewNode, SkiplistNode.NewNode, Trapping.writable.
  cbv zeta.
  destruct (Z.eqb_spec (malloc (SkiplistNode.NewNode_size key l) + 8 * l) nullptr)
    as [E|E]; [unfold nullptr in E; lia|].
  destruct (Z.eqb_spec (malloc (SkiplistNode.NewNode_size key l)) nullptr)
    as [E'|E']; [unfold nullptr in E'; lia|].
  destruct (Z.leb_spec (malloc (SkiplistNode.NewNode_size key l))
              (malloc (SkiplistNode.NewNode_size key l) + 8 * l)); [|lia].
  destruct (Z.ltb_spec (malloc (SkiplistNode.NewNode_size key l) + 8 * l)
              (malloc (SkiplistNode.NewNode_size key l)
               + SkiplistNode.NewNode_size key l)); [|lia].
  reflexivity.
Qed.




(** ** Random heights *)

Section RandomHeight.
Variable kMaxHeight : Z.
Variable rng : Type.
Variable fast_random : rng -> Z * rng.

Lemma RandomHeight_loop_range (fuel : nat) :
  forall height s,
    0 <= height <= kMaxHeight ->
    (Z.to_nat (kMaxHeight - height) < fuel)%nat ->
    exists h s',
      Skiplist.RandomHeight_loop kMaxHeight rng fast_random fuel height s
        = Ok (h, s') /\
      height <= h <= kMaxHeight.
Proof.
  induction fuel as [|fuel IH]; intros height s Hh Hf; [lia|].
  cbn [Skiplist.RandomHeight_loop].
  destruct (Z.ltb_spec height kMaxHeight) as [Hlt|Hge].
  - destruct (fast_random s) as [r s'].
    destruct (negb (Z.land r 1 =? 0)).
    + destruct (IH (height + 1) s') as (h & s'' & Hrun & Hr); [lia|lia|].
      exists h, s''. split; [exact Hrun | lia].
    + exists height, s'. split; [reflexivity | lia].
  - exists height, s. split; [reflexivity | lia].
Qed.
End RandomHeight.

(** C3, as the code has it.  [RandomHeight] returns for every generator state
    a height in [[0, kMaxHeight]]: it starts at 0 and adds one per odd draw,
    so the height is 0 exactly when the first draw is even (or
    [kMaxHeight = 0]). *)
Theorem random_height_range
    (kMaxHeight : Z) (rng : Type) (fast_random : rng -> Z * rng) (s : rng) :
  0 <= kMaxHeight ->
  exists h s',
    Skiplist.RandomHeight kMaxHeight rng fast_random s = Ok (h, s') /\
    0 <= h <= kMaxHeight /\
    (h = 0 <-> kMaxHeight = 0 \/ Z.land (fst (fast_random s)) 1 = 0).
Proof.
  intros HK. unfold Skiplist.RandomHeight.
  cbn [Skiplist.RandomHeight_loop].
  destruct (Z.ltb_spec 0 kMaxHeight) as [Hlt|Hge].
  - destruct (fast_random s) as [r s1] eqn:Hdraw. cbn [fst].
    destruct (Z.eqb_spec (Z.land r 1) 0) as [Heven|Hodd]; cbn [negb].
    + exists 0, s1. split; [reflexivity|]. split; [lia|]. tauto.
    + destruct (RandomHeight_loop_range kMaxHeight rng fast_random
                  (Z.to_nat kMaxHeight) (0 + 1) s1) as (h & s' & Hrun & Hr);
        [lia|lia|].
      exists h, s'. split; [exact Hrun|]. split; [lia|].
      split; [lia|]. intros [?|?]; [lia|contradiction].
  - exists 0, s. split; [reflexivity|]. split; [lia|].
    split; [intros _; left; lia | reflexivity].
Qed.

Lemma random_height_range_witness :
  0 <= 12 /\
  exists h s',
    Skiplist.RandomHeight 12 Z counter_random 1 = Ok (h, s') /\ 0 <= h <= 12.
Proof.
  assert (H : 0 <= 12) by lia.
  split; [exact H|].
  destruct (random_height_range 12 Z counter_random 1 H)
    as (h & s' & Hrun & Hr & _).
  exists h, s'. split; [exact Hrun | exact Hr].
Defined.

(** The claim C3 as stated fails: with an even first draw the height is 0,
    below 1. *)
Lemma random_height_zero :
  Skiplist.RandomHeight 12 Z counter_random 0 = Ok (0, 1) /\
  ~ (exists h s',
       Skiplist.RandomHeight 12 Z counter_random 0 = Ok (h, s') /\
       1 <= h <= 12).
Proof.
  split; [reflexivity|].
  intros (h & s' & Hrun & Hr).
  assert (E : Skiplist.RandomHeight 12 Z counter_random 0 = Ok (0, 1))
    by reflexivity.
  rewrite E in Hrun. injection Hrun as <- <-. lia.
Qed.

(** ** The sorted iterator *)

(** C10. On an invalid iterator [Next] and [Prev] return [false] and leave
    the iterator as it was, [Key] and [Value] return the empty string; this
    holds whatever persistent memory and heap contain and with no fuel at
    all, so nothing is read through [current]. *)
Theorem invalid_iterator_is_inert
    (offset2addr : Z -> Z) (fuel : nat) (pm : PMem) (hp : SkiplistNode.Heap)
    (it : SortedIterator.t) :
  SortedIterator.Valid it = false ->
  SortedIterator.Next offset2addr fuel pm it = Ok (false, it) /\
  SortedIterator.Prev offset2addr fuel pm hp it = Ok (false, it) /\
  SortedIterator.Key pm it = Ok EmptyString /\
  SortedIterator.Value pm it = Ok EmptyString.
Proof.
  intros Hinv.
  unfold SortedIterator.Next, SortedIterator.Prev, SortedIterator.Key,
    SortedIterator.Value.
  rewrite Hinv. cbn. auto.
Qed.

Lemma invalid_iterator_is_inert_witness :
  let it := {| SortedIterator.skiplist_ := demo_list;
               SortedIterator.current := nullptr |} in
  SortedIterator.Valid it = false /\
  SortedIterator.Next block_offset2addr 0 ∅ it = Ok (false, it) /\
  SortedIterator.Prev block_offset2addr 0 ∅ SkiplistNode.empty_heap it
    = Ok (false, it) /\
  SortedIterator.Key ∅ it = Ok EmptyString /\
  SortedIterator.Value ∅ it = Ok EmptyString.
Proof.
  intros it.
  assert (H : SortedIterator.Valid it = false) by reflexivity.
  split; [exact H|].
  exact (invalid_iterator_is_inert block_offset2addr 0 ∅
           SkiplistNode.empty_heap it H).
Defined.

Section IteratorSteps.
Variable offset2addr : Z -> Z.

Lemma pm_deref_some (pm : PMem) p e :
  p <> nullptr -> pm !! p = Some e -> DLDataEntry.deref pm p = Ok e.
Proof.
  intros Hp He. unfold DLDataEntry.deref.
  destruct (Z.eqb_spec p nullptr); [contradiction|]. now rewrite He.
Qed.

Lemma walk_start_nonnull f (pm : PMem) p rs q :
  walk offset2addr f pm p rs q -> p <> nullptr.
Proof. now destruct 1. Qed.

Lemma is_delete_true e :
  SortedIterator.is_delete e = true <->
  DLDataEntry.type e = DLDataEntry.SORTED_DELETE_RECORD.
Proof. unfold SortedIterator.is_delete. apply bool_decide_eq_true. Qed.

Lemma is_delete_false e :
  SortedIterator.is_delete e = false <->
  DLDataEntry.type e <> DLDataEntry.SORTED_DELETE_RECORD.
Proof. unfold SortedIterator.is_delete. apply bool_decide_eq_false. Qed.

(** The loop of [Next] passes over delete-marked records and stops at the
    first pointer that is null or a record without the mark. *)
Lemma Next_loop_walk (pm : PMem) cur skipped q :
  walk offset2addr DLDataEntry.next pm cur skipped q ->
  Forall (delete_marked pm) skipped ->
  q = nullptr \/ not_delete_marked pm q ->
  forall fuel, (length skipped < fuel)%nat ->
    SortedIterator.Next_loop offset2addr fuel pm cur = Ok q.
Proof.
  induction 1 as [p e q Hp He Hq | p e r rs q Hp He Hr Hw IH];
    intros Hdel Hend fuel Hfuel.
  - destruct fuel as [|fuel]; [cbn in Hfuel; lia|].
    cbn [SortedIterator.Next_loop]. rewrite (pm_deref_some pm p e Hp He).
    cbn. rewrite Hq.
    destruct (Z.eqb_spec q nullptr) as [->|Hne]; [reflexivity|].
    destruct Hend as [?|[_ (e' & He' & Hty)]]; [contradiction|].
    rewrite (pm_deref_some pm q e' Hne He'). cbn.
    apply is_delete_false in Hty. now rewrite Hty.
  - destruct fuel as [|fuel]; [cbn in Hfuel; lia|].
    cbn [SortedIterator.Next_loop]. rewrite (pm_deref_some pm p e Hp He).
    cbn. rewrite Hr.
    pose proof (walk_start_nonnull _ _ _ _ _ Hw) as Hrn.
    destruct (Z.eqb_spec r nullptr); [contradiction|].
    apply Forall_cons in Hdel as [(e' & He' & Hty) Hdel].
    rewrite (pm_deref_some pm r e' Hrn He'). cbn.
    apply is_delete_true in Hty. rewrite Hty.
    apply IH; [exact Hdel | exact Hend | cbn in Hfuel; lia].
Qed.

(** The loop of [Prev] passes over delete-marked records and stops at the
    first record without the mark. *)
Lemma Prev_loop_walk (pm : PMem) cur skipped q :
  walk offset2addr DLDataEntry.prev pm cur skipped q ->
  Forall (delete_marked pm) skipped ->
  not_delete_marked pm q ->
  forall fuel, (length skipped < fuel)%nat ->
    SortedIterator.Prev_loop offset2addr fuel pm cur = Ok q.
Proof.
  induction 1 as [p e q Hp He Hq | p e r rs q Hp He Hr Hw IH];
    intros Hdel Hend fuel Hfuel.
  - destruct fuel as [|fuel]; [cbn in Hfuel; lia|].
    cbn [SortedIterator.Prev_loop]. rewrite (pm_deref_some pm p e Hp He).
    cbn. rewrite Hq.
    destruct Hend as [Hne (e' & He' & Hty)].
    rewrite (pm_deref_some pm q e' Hne He'). cbn.
    apply is_delete_false in Hty. now rewrite Hty.
  - destruct fuel as [|fuel]; [cbn in Hfuel; lia|].
    cbn [SortedIterator.Prev_loop]. rewrite (pm_deref_some pm p e Hp He).
    cbn. rewrite Hr.
    pose proof (walk_start_nonnull _ _ _ _ _ Hw) as Hrn.
    apply Forall_cons in Hdel as [(e' & He' & Hty) Hdel].
    rewrite (pm_deref_some pm r e' Hrn He'). cbn.
    apply is_delete_true in Hty. rewrite Hty.
    apply IH; [exact Hdel | exact Hend | cbn in Hfuel; lia].
Qed.
End IteratorSteps.

Lemma drop_cons_inv {A : Type} (l : list A) (n : nat) x t :
  drop n l = x :: t -> l !! n = Some x /\ drop (S n) l = t.
Proof.
  revert n. induction l as [|a l IH]; intros [|n] H; cbn in *; try discriminate.
  - injection H as -> ->. split; [reflexivity | now rewrite drop_0].
  - apply IH in H. exact H.
Qed.

Lemma elem_of_middle {A : Type} (l1 l2 : list A) (x : A) : x ∈ l1 ++ x :: l2.
Proof. apply elem_of_app. right. apply elem_of_cons. now left. Qed.

Lemma elem_of_prefix {A : Type} (l1 l2 : list A) (x : A) :
  x ∈ l1 -> x ∈ l1 ++ l2.
Proof. intros H. apply elem_of_app. now left. Qed.

Lemma first_live_split (pm : PMem) (l : list Z) :
  match first_live pm l with
  | Some q => exists l1 l2, l = l1 ++ q :: l2 /\
                Forall (fun r => is_live pm r = false) l1 /\
                is_live pm q = true
  | None => Forall (fun r => is_live pm r = false) l
  end.
Proof.
  induction l as [|r l IH]; cbn; [constructor|].
  destruct (is_live pm r) eqn:Hr.
  - exists [], l. split; [reflexivity|]. split; [constructor | exact Hr].
  - destruct (first_live pm l) as [q|].
    + destruct IH as (l1 & l2 & -> & Hl1 & Hq).
      exists (r :: l1), l2. split; [reflexivity|].
      split; [constructor; assumption | exact Hq].
    + constructor; assumption.
Qed.

Section ChainWalks.
Variable offset2addr : Z -> Z.
Variables (pm : PMem) (hdr : Z) (rs : list Z).
Hypothesis Hchain : sorted_chain offset2addr pm hdr rs.

Lemma chain_member_marks r :
  r ∈ rs ->
  (is_live pm r = false -> delete_marked pm r) /\
  (is_live pm r = true -> not_delete_marked pm r) /\
  r <> hdr.
Proof.
  intros Hin. apply list_elem_of_lookup in Hin as [j Hj].
  destruct (chain_records _ _ _ _ Hchain j r Hj) as (Hn & e & He & Hty & _).
  destruct (chain_header _ _ _ _ Hchain) as (_ & eh & Heh & Hth & _).
  unfold is_live. rewrite He. split_and!.
  - intros Hl. exists e. split; [exact He|].
    apply negb_false_iff in Hl. now apply is_delete_true in Hl.
  - intros Hl. split; [exact Hn|]. exists e. split; [exact He|].
    apply negb_true_iff in Hl. now apply is_delete_false in Hl.
  - intros ->. rewrite Heh in He. injection He as ->.
    rewrite Hth in Hty. destruct Hty; discriminate.
Qed.

Lemma header_not_delete_marked : not_delete_marked pm hdr.
Proof.
  destruct (chain_header _ _ _ _ Hchain) as (Hn & eh & Heh & Hth & _).
  split; [exact Hn|]. exists eh. split; [exact Heh|]. now rewrite Hth.
Qed.

(** Forward from the record of index [j]: the records that follow, then
    the next one or the null pointer. *)
Lemma chain_walk_next :
  forall l1 l2 (j : nat) cur,
    rs !! j = Some cur -> drop (S j) rs = l1 ++ l2 ->
    walk offset2addr DLDataEntry.next pm cur l1 (default nullptr (head l2)).
Proof.
  induction l1 as [|r l1 IH]; intros l2 j cur Hj Hdrop.
  - destruct (chain_records _ _ _ _ Hchain j cur Hj)
      as (Hn & e & He & _ & Hnext & _).
    apply (walk_arrive _ _ _ _ e); [exact Hn | exact He |].
    rewrite Hnext. cbn in Hdrop. rewrite <- Hdrop.
    rewrite head_lookup, lookup_drop. now rewrite Nat.add_0_r.
  - cbn in Hdrop. apply drop_cons_inv in Hdrop as [Hr Hdrop].
    destruct (chain_records _ _ _ _ Hchain j cur Hj)
      as (Hn & e & He & _ & Hnext & _).
    apply (walk_step _ _ _ _ e); [exact Hn | exact He | |].
    + rewrite Hnext, Hr. reflexivity.
    + apply (IH l2 (S j)); assumption.
Qed.

(** Backward from the record of index [j]: the records before it, last
    first, then the one before them or the header. *)
Lemma chain_walk_prev :
  forall l1 l2 (j : nat) cur,
    rs !! j = Some cur -> reverse (take j rs) = l1 ++ l2 ->
    walk offset2addr DLDataEntry.prev pm cur l1 (default hdr (head l2)).
Proof.
  induction l1 as [|r l1 IH]; intros l2 j cur Hj Hrev.
  - destruct (chain_records _ _ _ _ Hchain j cur Hj)
      as (Hn & e & He & _ & _ & Hprev).
    apply (walk_arrive _ _ _ _ e); [exact Hn | exact He |].
    rewrite Hprev. cbn in Hrev. rewrite <- Hrev.
    destruct j as [|j']; [reflexivity|].
    assert (Hlt : (j' < length rs)%nat)
      by (apply lookup_lt_Some in Hj; lia).
    apply lookup_lt_is_Some in Hlt as [x Hx].
    rewrite (take_S_r _ _ _ Hx), reverse_snoc. cbn. now rewrite Hx.
  - destruct j as [|j'].
    { rewrite take_0 in Hrev. discriminate. }
    assert (Hlt : (j' < length rs)%nat)
      by (apply lookup_lt_Some in Hj; lia).
    apply lookup_lt_is_Some in Hlt as [x Hx].
    rewrite (take_S_r _ _ _ Hx), reverse_snoc in Hrev.
    cbn in Hrev. injection Hrev as -> Hrev.
    destruct (chain_records _ _ _ _ Hchain (S j') cur Hj)
      as (Hn & e & He & _ & _ & Hprev).
    apply (walk_step _ _ _ _ e); [exact Hn | exact He | |].
    + rewrite Hprev, Hx. reflexivity.
    + apply (IH l2 j'); assumption.
Qed.
End ChainWalks.

Lemma valid_set_current it q :
  SortedIterator.Valid (SortedIterator.set_current it q) = negb (q =? nullptr).
Proof. reflexivity. Qed.

(** From a record of a sorted chain, [Next] rests on the first following
    record without the delete mark and [Prev] on the nearest preceding one;
    without such a record the iterator ends up invalid. *)
Lemma chain_steps
    (offset2addr : Z -> Z) (pm : PMem) (hp : SkiplistNode.Heap)
    (sl : Skiplist.t) (hdr : Z) (rs : list Z) (j : nat) (cur : Z) (fuel : nat) :
  sorted_chain offset2addr pm hdr rs ->
  (exists hn, SkiplistNode.deref hp (Skiplist.header sl) = Ok hn /\
              SkiplistNode.data_entry hn = hdr) ->
  rs !! j = Some cur ->
  (length rs < fuel)%nat ->
  let it := {| SortedIterator.skiplist_ := sl; SortedIterator.current := cur |} in
  SortedIterator.Next offset2addr fuel pm it
    = Ok (step_to it (first_live pm (drop (S j) rs))) /\
  SortedIterator.Prev offset2addr fuel pm hp it
    = Ok (step_to it (first_live pm (reverse (take j rs)))).
Proof.
  intros Hchain (hn & Hhn & Hhdr) Hj Hfuel it.
  pose proof (chain_member_marks offset2addr pm hdr rs Hchain) as Hmarks.
  assert (Hcur : cur <> nullptr)
    by (destruct (chain_records _ _ _ _ Hchain j cur Hj) as [? _]; assumption).
  assert (Hvalid : SortedIterator.Valid it = true).
  { unfold SortedIterator.Valid, it. cbn.
    destruct (Z.eqb_spec cur nullptr); [contradiction | reflexivity]. }
  assert (Hsub_after : forall r, r ∈ drop (S j) rs -> r ∈ rs).
  { intros r Hr. eapply subseteq_drop. exact Hr. }
  assert (Hsub_before : forall r, r ∈ reverse (take j rs) -> r ∈ rs).
  { intros r Hr. rewrite elem_of_reverse in Hr. eapply subseteq_take. exact Hr. }
  assert (Hlen_after : (length (drop (S j) rs) <= length rs)%nat)
    by (rewrite length_drop; lia).
  assert (Hlen_before : (length (reverse (take j rs)) <= length rs)%nat)
    by (rewrite length_reverse, length_take; lia).
  assert (Hdel : forall l, (forall r, r ∈ l -> r ∈ rs) ->
            Forall (fun r => is_live pm r = false) l ->
            Forall (delete_marked pm) l).
  { intros l Hl Hf. apply Forall_forall. intros r Hr.
    rewrite Forall_forall in Hf. apply Hmarks; auto. }
  split.
  - unfold SortedIterator.Next. rewrite Hvalid. cbn [negb].
    pose proof (first_live_split pm (drop (S j) rs)) as Hsplit.
    destruct (first_live pm (drop (S j) rs)) as [q|].
    + destruct Hsplit as (l1 & l2 & Hl & Hl1 & Hq).
      assert (Hqin : q ∈ rs).
      { apply Hsub_after. rewrite Hl. apply elem_of_middle. }
      destruct (Hmarks q Hqin) as (_ & Hlive & _). specialize (Hlive Hq).
      rewrite (Next_loop_walk offset2addr pm cur l1 q).
      * cbn. destruct Hlive as [Hqn _].
        destruct (Z.eqb_spec q nullptr); [contradiction | reflexivity].
      * exact (chain_walk_next offset2addr pm hdr rs Hchain l1 (q :: l2) j cur Hj Hl).
      * apply Hdel; [|exact Hl1]. intros r Hr. apply Hsub_after.
        rewrite Hl. now apply elem_of_prefix.
      * right. exact Hlive.
      * rewrite Hl, length_app in Hlen_after. lia.
    + rewrite (Next_loop_walk offset2addr pm cur (drop (S j) rs) nullptr).
      * reflexivity.
      * apply (chain_walk_next offset2addr pm hdr rs Hchain _ [] j cur Hj).
        now rewrite app_nil_r.
      * apply Hdel; assumption.
      * left. reflexivity.
      * lia.
  - unfold SortedIterator.Prev. rewrite Hvalid. cbn [negb].
    pose proof (first_live_split pm (reverse (take j rs))) as Hsplit.
    destruct (first_live pm (reverse (take j rs))) as [q|].
    + destruct Hsplit as (l1 & l2 & Hl & Hl1 & Hq).
      assert (Hqin : q ∈ rs).
      { apply Hsub_before. rewrite Hl. apply elem_of_middle. }
      destruct (Hmarks q Hqin) as (_ & Hlive & Hqh). specialize (Hlive Hq).
      rewrite (Prev_loop_walk offset2addr pm cur l1 q).
      * cbn. rewrite Hhn. cbn. rewrite Hhdr.
        destruct (Z.eqb_spec q hdr); [contradiction | reflexivity].
      * exact (chain_walk_prev offset2addr pm hdr rs Hchain l1 (q :: l2) j cur Hj Hl).
      * apply Hdel; [|exact Hl1]. intros r Hr. apply Hsub_before.
        rewrite Hl. now apply elem_of_prefix.
      * exact Hlive.
      * rewrite Hl, length_app in Hlen_before. lia.
    + rewrite (Prev_loop_walk offset2addr pm cur (reverse (take j rs)) hdr).
      * cbn. rewrite Hhn. cbn. rewrite Hhdr, Z.eqb_refl. reflexivity.
      * apply (chain_walk_prev offset2addr pm hdr rs Hchain _ [] j cur Hj).
        now rewrite app_nil_r.
      * apply Hdel; assumption.
      * apply (header_not_delete_marked offset2addr pm hdr rs Hchain).
      * lia.
Qed.

(** C1.  On the chain of every sorted collection (header, records, null
    offset after the last record) and from a record of the chain, [Next]
    rests on the first following record that is not delete-marked and
    [Prev] on the nearest preceding one, so a step that returns [true]
    never rests on a delete-marked record, and never on the header.  When
    the walk reaches the collection header record the iterator becomes
    invalid, in both directions: the walk of [Prev] ends at the header
    exactly when no live record precedes, and [Prev] then answers [false]
    with the iterator at null; the walk of [Next] ends at the first live
    record or at the null pointer that closes the chain, never at the
    header, and at null the iterator is invalid as well. *)
Theorem iterator_steps_skip_deleted
    (offset2addr : Z -> Z) (pm : PMem) (hp : SkiplistNode.Heap)
    (sl : Skiplist.t) (hdr : Z) (rs : list Z) (j : nat) (cur : Z) (fuel : nat) :
  sorted_chain offset2addr pm hdr rs ->
  (exists hn, SkiplistNode.deref hp (Skiplist.header sl) = Ok hn /\
              SkiplistNode.data_entry hn = hdr) ->
  rs !! j = Some cur ->
  (length rs < fuel)%nat ->
  let it := {| SortedIterator.skiplist_ := sl; SortedIterator.current := cur |} in
  let after := first_live pm (drop (S j) rs) in
  let before := first_live pm (reverse (take j rs)) in
  SortedIterator.Next offset2addr fuel pm it = Ok (step_to it after) /\
  SortedIterator.Prev offset2addr fuel pm hp it = Ok (step_to it before) /\
  (forall q, after = Some q \/ before = Some q ->
     not_delete_marked pm q /\ q <> hdr /\
     SortedIterator.Valid (SortedIterator.set_current it q) = true) /\
  (after = None -> SortedIterator.Valid (snd (step_to it after)) = false) /\
  (before = None -> SortedIterator.Valid (snd (step_to it before)) = false) /\
  SortedIterator.Next_loop offset2addr fuel pm cur = Ok (default nullptr after) /\
  default nullptr after <> hdr /\
  SortedIterator.Prev_loop offset2addr fuel pm cur = Ok (default hdr before) /\
  (SortedIterator.Next_loop offset2addr fuel pm cur = Ok hdr ->
     SortedIterator.Valid (snd (step_to it after)) = false) /\
  (SortedIterator.Prev_loop offset2addr fuel pm cur = Ok hdr ->
     SortedIterator.Valid (snd (step_to it before)) = false).
Proof.
  intros Hchain Hhdr Hj Hfuel it after before.
  pose proof (chain_member_marks offset2addr pm hdr rs Hchain) as Hmarks.
  assert (Hsub_after : forall r, r ∈ drop (S j) rs -> r ∈ rs).
  { intros r Hr. eapply subseteq_drop. exact Hr. }
  assert (Hsub_before : forall r, r ∈ reverse (take j rs) -> r ∈ rs).
  { intros r Hr. rewrite elem_of_reverse in Hr. eapply subseteq_take. exact Hr. }
  destruct (chain_steps offset2addr pm hp sl hdr rs j cur fuel
              Hchain Hhdr Hj Hfuel) as [HN HP].
  fold it in HN, HP. fold after in HN. fold before in HP.
  assert (Hrest : forall q, after = Some q \/ before = Some q ->
     not_delete_marked pm q /\ q <> hdr /\
     SortedIterator.Valid (SortedIterator.set_current it q) = true).
  { intros q Hq.
    assert (Hqin : q ∈ rs /\ is_live pm q = true).
    { destruct Hq as [Hq|Hq].
      - pose proof (first_live_split pm (drop (S j) rs)) as Hsplit.
        subst after. rewrite Hq in Hsplit.
        destruct Hsplit as (l1 & l2 & Hl & _ & Hlive).
        split; [|exact Hlive]. apply Hsub_after. rewrite Hl.
        apply elem_of_middle.
      - pose proof (first_live_split pm (reverse (take j rs))) as Hsplit.
        subst before. rewrite Hq in Hsplit.
        destruct Hsplit as (l1 & l2 & Hl & _ & Hlive).
        split; [|exact Hlive]. apply Hsub_before. rewrite Hl.
        apply elem_of_middle. }
    destruct Hqin as [Hqin Hlive].
    destruct (Hmarks q Hqin) as (_ & Hnd & Hqh). specialize (Hnd Hlive).
    split; [exact Hnd|]. split; [exact Hqh|].
    rewrite valid_set_current. destruct Hnd as [Hqn _].
    destruct (Z.eqb_spec q nullptr); [contradiction | reflexivity]. }
  assert (Hcur : cur <> nullptr).
  { destruct (chain_records _ _ _ _ Hchain j cur Hj) as [? _]; assumption. }
  assert (Hvalid : SortedIterator.Valid it = true).
  { unfold SortedIterator.Valid, it. cbn.
    destruct (Z.eqb_spec cur nullptr); [contradiction | reflexivity]. }
  assert (Hhn : hdr <> nullptr) by (destruct Hchain as [[Hh _] _]; exact Hh).
  assert (Hafter : default nullptr after <> hdr).
  { destruct after as [q|] eqn:Ha; cbn.
    - apply (Hrest q). left. reflexivity.
    - intros E. apply Hhn. symmetry. exact E. }
  assert (HNl : SortedIterator.Next_loop offset2addr fuel pm cur
                = Ok (default nullptr after)).
  { unfold SortedIterator.Next in HN. rewrite Hvalid in HN. cbn in HN.
    destruct (SortedIterator.Next_loop offset2addr fuel pm cur) as [c| |];
      cbn in HN; try discriminate HN.
    destruct after as [q|]; cbn in HN |- *; injection HN as _ Hc;
      f_equal; exact Hc. }
  assert (HPl : SortedIterator.Prev_loop offset2addr fuel pm cur
                = Ok (default hdr before)).
  { unfold SortedIterator.Prev in HP. rewrite Hvalid in HP. cbn in HP.
    destruct Hhdr as (hn & Hd & He). rewrite Hd in HP.
    destruct (SortedIterator.Prev_loop offset2addr fuel pm cur) as [c| |];
      cbn in HP; try discriminate HP.
    rewrite He in HP.
    destruct (Z.eqb_spec c hdr) as [E|Hne].
    - destruct before as [q|]; cbn in HP |- *; [discriminate HP | f_equal; exact E].
    - destruct before as [q|]; cbn in HP |- *; [|discriminate HP].
      injection HP as Hc. f_equal. exact Hc. }
  split; [exact HN|]. split; [exact HP|]. split; [exact Hrest|].
  split; [intros ->; reflexivity|]. split; [intros ->; reflexivity|].
  split; [exact HNl|]. split; [exact Hafter|]. split; [exact HPl|]. split.
  - intros E. rewrite HNl in E. injection E as E. contradiction.
  - intros E. rewrite HPl in E. injection E as E.
    destruct before as [q|] eqn:Hb; [|reflexivity].
    cbn in E. exfalso. apply (Hrest q); [right; reflexivity | exact E].
Qed.

Lemma abc_chain :
  sorted_chain block_offset2addr abc_pmem 4096 [4160; 4224; 4288].
Proof.
  split.
  - split; [discriminate|]. eexists. split; [vm_compute; reflexivity|].
    split; reflexivity.
  - intros j r Hj.
    destruct j as [|[|[|j]]]; cbn in Hj; try discriminate;
      injection Hj as <-; (split; [discriminate|]);
      eexists; (split; [vm_compute; reflexivity|]);
      (split; [cbn; auto|]); split; reflexivity.
Qed.

Lemma iterator_steps_skip_deleted_witness :
  let it := {| SortedIterator.skiplist_ := demo_list;
               SortedIterator.current := 4160 |} in
  (sorted_chain block_offset2addr abc_pmem 4096 [4160; 4224; 4288] /\
   (exists hn,
      SkiplistNode.deref header_only_heap (Skiplist.header demo_list) = Ok hn /\
      SkiplistNode.data_entry hn = 4096) /\
   [4160; 4224; 4288] !! 0%nat = Some 4160 /\
   (length [4160; 4224; 4288] < 4)%nat) /\
  SortedIterator.Next block_offset2addr 4 abc_pmem it
    = Ok (true, SortedIterator.set_current it 4288) /\
  SortedIterator.Prev block_offset2addr 4 abc_pmem header_only_heap it
    = Ok (false, SortedIterator.set_current it nullptr).
Proof.
  intros it.
  assert (H1 : sorted_chain block_offset2addr abc_pmem 4096 [4160; 4224; 4288])
    by exact abc_chain.
  assert (H2 : exists hn,
      SkiplistNode.deref header_only_heap (Skiplist.header demo_list) = Ok hn /\
      SkiplistNode.data_entry hn = 4096).
  { exists demo_header_node. split; [vm_compute; reflexivity | reflexivity]. }
  assert (H3 : [4160; 4224; 4288] !! 0%nat = Some 4160) by reflexivity.
  assert (H4 : (length [4160; 4224; 4288] < 4)%nat) by (cbn; lia).
  split; [auto|].
  destruct (iterator_steps_skip_deleted block_offset2addr abc_pmem
              header_only_heap demo_list 4096 [4160; 4224; 4288] 0 4160 4
              H1 H2 H3 H4) as (HN & HP & _).
  split; [exact HN | exact HP].
Defined.

(** ** Key order *)

Lemma compare_lt_trans (a b c : string) :
  String.compare a b = Lt -> String.compare b c = Lt -> String.compare a c = Lt.
Proof.
  intros Hab Hbc.
  apply String_as_OT.cmp_lt. apply String_as_OT.cmp_lt in Hab, Hbc.
  exact (String_as_OT.lt_trans _ _ _ Hab Hbc).
Qed.

Lemma Slice_compare_neg (a b : Slice) :
  Slice_compare a b < 0 <-> String.compare a b = Lt.
Proof.
  unfold Slice_compare. destruct (String.compare a b); split; intros H;
    first [reflexivity | lia | discriminate].
Qed.

Lemma Slice_compare_pos (a b : Slice) :
  0 < Slice_compare a b <-> String.compare b a = Lt.
Proof.
  unfold Slice_compare. rewrite (String.compare_antisym b a).
  destruct (String.compare a b); cbn; split; intros H;
    first [reflexivity | lia | discriminate].
Qed.

Lemma Slice_compare_nonpos (a b : Slice) :
  Slice_compare a b <= 0 <-> a = b \/ String.compare a b = Lt.
Proof.
  unfold Slice_compare. destruct (String.compare a b) eqn:E; split; intros H.
  - left. now apply String.compare_eq_iff.
  - lia.
  - now right.
  - lia.
  - lia.
  - destruct H as [->|H]; [|discriminate].
    assert (String.compare b b = Eq) by (apply String_as_OT.cmp_eq; reflexivity).
    congruence.
Qed.

(** [k <= a] and [a < b] give [k <= b]. *)
Lemma not_below_step (k a b : Slice) :
  Slice_compare k a <= 0 -> Slice_compare a b < 0 -> Slice_compare k b <= 0.
Proof.
  rewrite !Slice_compare_nonpos, Slice_compare_neg.
  intros [->|Hka] Hab; right; [exact Hab|].
  exact (compare_lt_trans _ _ _ Hka Hab).
Qed.

(** [a < b] and [b < k] give [a < k]. *)
Lemma below_step (k a b : Slice) :
  Slice_compare a b < 0 -> 0 < Slice_compare k b -> 0 < Slice_compare k a.
Proof.
  rewrite !Slice_compare_pos, Slice_compare_neg.
  intros Hab Hbk. exact (compare_lt_trans _ _ _ Hab Hbk).
Qed.

(** ** The window of a splice at one level *)

Lemma set_prevs_same sp l p :
  Skiplist.prevs sp !! l = Some p -> Skiplist.set_prevs sp l p = sp.
Proof.
  intros H. destruct sp as [n pv pd nd]. unfold Skiplist.set_prevs. cbn in *.
  f_equal. now apply insert_id.
Qed.

Lemma set_prevs_twice sp l p q :
  Skiplist.set_prevs (Skiplist.set_prevs sp l p) l q = Skiplist.set_prevs sp l q.
Proof.
  unfold Skiplist.set_prevs. cbn. f_equal. apply insert_insert_eq.
Qed.

Lemma cell_in_range kMaxHeight (a : gmap Z Z) l x :
  0 <= l <= kMaxHeight -> a !! l = Some x -> Skiplist.cell kMaxHeight a l = Ok x.
Proof.
  intros Hl Hx. unfold Skiplist.cell.
  destruct (Z.leb_spec 0 l); [|lia].
  destruct (Z.leb_spec l kMaxHeight); [|lia].
  cbn. now rewrite Hx.
Qed.

Section Scan.
Variable kMaxHeight : Z.
Variables (pm : PMem) (hp : SkiplistNode.Heap) (key : Slice) (l : Z).
Hypothesis Hl : 0 <= l <= kMaxHeight.

(** The loop of [Recompute] walks the chain of level [l] from [prevs[l]]:
    it passes the nodes whose key is below [key] and stops in front of the
    first node whose key is not, or at the end of the chain. *)
Lemma Recompute_scan :
  forall cs p sp fuel,
    Skiplist.prevs sp !! l = Some p ->
    level_chain hp l p cs ->
    Forall (fun n => exists kn, SkiplistNode.Key pm hp n = Ok kn) cs ->
    (length cs < fuel)%nat ->
    exists passed rest,
      cs = passed ++ rest /\
      Forall (below pm hp key) passed /\
      match rest with
      | [] => True
      | n :: _ => not_below pm hp key n
      end /\
      SkiplistNode.Next hp (default p (last passed)) l
        = Ok (default nullptr (head rest)) /\
      Skiplist.Recompute kMaxHeight fuel pm hp sp key l =
        Ok (Skiplist.set_nexts
              (Skiplist.set_prevs sp l (default p (last passed)))
              l (default nullptr (head rest))).
Proof.
  induction cs as [|q cs IH]; intros p sp fuel Hp Hchain Hkeys Hfuel.
  - inversion Hchain as [p' Hnext|]; subst.
    destruct fuel as [|fuel]; [cbn in Hfuel; lia|].
    exists [], []. split; [reflexivity|]. split; [constructor|].
    split; [exact I|]. split; [exact Hnext|].
    cbn [Skiplist.Recompute].
    rewrite (cell_in_range _ _ _ _ Hl Hp). cbn. rewrite Hnext. cbn.
    now rewrite (set_prevs_same _ _ _ Hp).
  - inversion Hchain as [|p' q' cs' Hnext Hq Hrest]; subst.
    destruct fuel as [|fuel]; [cbn in Hfuel; lia|].
    apply Forall_cons in Hkeys as [[kq Hkq] Hkeys].
    cbn [Skiplist.Recompute].
    rewrite (cell_in_range _ _ _ _ Hl Hp). cbn. rewrite Hnext. cbn.
    destruct (Z.eqb_spec q nullptr); [contradiction|].
    rewrite Hkq. cbn.
    destruct (Z.ltb_spec 0 (Slice_compare key kq)) as [Hlt|Hge].
    + destruct (IH q (Skiplist.set_prevs sp l q) fuel)
        as (passed & rest & Hcs & Hpassed & Hhead & Hwin & Hrun).
      * cbn. apply lookup_insert_eq.
      * exact Hrest.
      * exact Hkeys.
      * cbn in Hfuel. lia.
      * exists (q :: passed), rest.
        assert (Hlast : default p (last (q :: passed)) = default q (last passed)).
        { rewrite last_cons. now destruct (last passed). }
        split; [now rewrite Hcs|].
        split; [constructor; [exists kq; auto | exact Hpassed]|].
        split; [exact Hhead|]. rewrite Hlast.
        split; [exact Hwin|].
        rewrite Hrun. now rewrite set_prevs_twice.
    + exists [], (q :: cs). split; [reflexivity|]. split; [constructor|].
      split; [exists kq; auto|]. split; [exact Hnext|].
      cbn. now rewrite (set_prevs_same _ _ _ Hp).
Qed.

(** On ascending keys every node from the first one that is not below
    [key] on is not below [key] either. *)
Lemma ascending_rest_not_below (rest : list Z) :
  StronglySorted (node_lt pm hp) rest ->
  match rest with
  | [] => True
  | n :: _ => not_below pm hp key n
  end ->
  Forall (not_below pm hp key) rest.
Proof.
  destruct rest as [|n rest]; intros Hs Hn; [constructor|].
  apply StronglySorted_inv in Hs as [_ Hall].
  constructor; [exact Hn|].
  destruct Hn as (kn & Hkn & Hle).
  eapply Forall_impl; [exact Hall|]. cbn.
  intros m (kn' & km & Hkn' & Hkm & Hlt).
  rewrite Hkn in Hkn'. injection Hkn' as <-.
  exists km. split; [exact Hkm|]. exact (not_below_step _ _ _ Hle Hlt).
Qed.
End Scan.

(** C4. On a stable topology, where the chain [cs] of level [l] behind
    [prevs[l]] ends at null and has ascending keys, [Recompute(k, l)]
    terminates; the chain splits into the nodes it passed, all with a key
    strictly less than [k], and the rest, all with a key greater than or
    equal to [k]; [prevs[l]] is the last node passed, the rightmost node of
    the level whose key is less than [k] (the old [prevs[l]], a node below
    [k] or the header, when there is none behind it), and [nexts[l]] is the
    node that follows it at level [l], the first of the rest, or null when
    nothing is left.  No other cell of the splice changes. *)
Theorem recompute_window
    (kMaxHeight : Z) (pm : PMem) (hp : SkiplistNode.Heap) (sp : Skiplist.Splice)
    (key : Slice) (l p : Z) (cs : list Z) (fuel : nat) :
  0 <= l <= kMaxHeight ->
  Skiplist.prevs sp !! l = Some p ->
  level_chain hp l p cs ->
  ascending pm hp cs ->
  (length cs < fuel)%nat ->
  exists sp' passed rest,
    Skiplist.Recompute kMaxHeight fuel pm hp sp key l = Ok sp' /\
    cs = passed ++ rest /\
    Forall (below pm hp key) passed /\
    Forall (not_below pm hp key) rest /\
    Skiplist.prevs sp' !! l = Some (default p (last passed)) /\
    Skiplist.nexts sp' !! l = Some (default nullptr (head rest)) /\
    SkiplistNode.Next hp (default p (last passed)) l
      = Ok (default nullptr (head rest)) /\
    (below pm hp key p -> below pm hp key (default p (last passed))) /\
    (forall l', l' <> l ->
       Skiplist.prevs sp' !! l' = Skiplist.prevs sp !! l' /\
       Skiplist.nexts sp' !! l' = Skiplist.nexts sp !! l') /\
    Skiplist.prev_data_entry sp' = Skiplist.prev_data_entry sp /\
    Skiplist.next_data_entry sp' = Skiplist.next_data_entry sp.
Proof.
  intros Hl Hp Hchain [Hkeys Hsorted] Hfuel.
  destruct (Recompute_scan kMaxHeight pm hp key l Hl cs p sp fuel
              Hp Hchain Hkeys Hfuel)
    as (passed & rest & Hcs & Hpassed & Hhead & Hwin & Hrun).
  eexists. exists passed, rest. split; [exact Hrun|].
  split; [exact Hcs|]. split; [exact Hpassed|].
  split.
  { apply ascending_rest_not_below; [|exact Hhead].
    rewrite Hcs in Hsorted. now apply StronglySorted_app_1_r in Hsorted. }
  cbn. split; [apply lookup_insert_eq|]. split; [apply lookup_insert_eq|].
  split; [exact Hwin|]. split.
  { intros Hb. destruct (last passed) as [x|] eqn:Hlast; cbn; [|exact Hb].
    rewrite Forall_forall in Hpassed. apply Hpassed.
    apply last_Some in Hlast as [l' ->]. apply elem_of_middle. }
  split; [|split; reflexivity].
  intros l' Hne. split; now rewrite lookup_insert_ne.
Qed.

Lemma aceg_level1_chain :
  level_chain (aceg_heap EmptyString) 1 1000 [2000; 3000; 4000; 5000].
Proof.
  repeat (eapply level_link; [vm_compute; reflexivity | discriminate |]).
  apply level_end. vm_compute; reflexivity.
Qed.

Lemma aceg_level1_ascending :
  ascending (aceg_pmem EmptyString) (aceg_heap EmptyString) [2000; 3000; 4000; 5000].
Proof.
  split.
  - repeat constructor; eexists; vm_compute; reflexivity.
  - repeat constructor;
      (do 2 eexists; split; [vm_compute; reflexivity|];
       split; [vm_compute; reflexivity | vm_compute; reflexivity]).
Qed.

Lemma recompute_window_witness :
  (0 <= 1 <= 3 /\
   Skiplist.prevs header_splice !! 1 = Some 1000 /\
   level_chain (aceg_heap EmptyString) 1 1000 [2000; 3000; 4000; 5000] /\
   ascending (aceg_pmem EmptyString) (aceg_heap EmptyString) [2000; 3000; 4000; 5000] /\
   (length [2000; 3000; 4000; 5000] < 5)%nat) /\
  exists sp' passed rest,
    Skiplist.Recompute 3 5 (aceg_pmem EmptyString) (aceg_heap EmptyString) header_splice "f" 1
      = Ok sp' /\
    [2000; 3000; 4000; 5000] = passed ++ rest /\
    Forall (below (aceg_pmem EmptyString) (aceg_heap EmptyString) "f") passed /\
    Forall (not_below (aceg_pmem EmptyString) (aceg_heap EmptyString) "f") rest /\
    Skiplist.prevs sp' !! 1 = Some (default 1000 (last passed)) /\
    Skiplist.nexts sp' !! 1 = Some (default nullptr (head rest)).
Proof.
  assert (H1 : 0 <= 1 <= 3) by lia.
  assert (H2 : Skiplist.prevs header_splice !! 1 = Some 1000)
    by (vm_compute; reflexivity).
  pose proof aceg_level1_chain as H3.
  pose proof aceg_level1_ascending as H4.
  assert (H5 : (length [2000; 3000; 4000; 5000] < 5)%nat) by (cbn; lia).
  split; [auto|].
  destruct (recompute_window 3 (aceg_pmem EmptyString) (aceg_heap EmptyString) header_splice "f"
              1 1000 [2000; 3000; 4000; 5000] 5 H1 H2 H3 H4 H5)
    as (sp' & passed & rest & Hrun & Hcs & Hp & Hr & Hpv & Hnx & _).
  exists sp', passed, rest. auto 10.
Defined.

(** ** The descent of [Seek] *)

Lemma level_chain_suffix hp l e1 :
  forall p q e2,
    level_chain hp l p (e1 ++ q :: e2) -> level_chain hp l q e2.
Proof.
  induction e1 as [|x e1 IH]; intros p q e2 H; cbn in H;
    inversion H as [|p' q' cs' Hn Hq Hrest]; subst.
  - exact Hrest.
  - exact (IH _ _ _ Hrest).
Qed.

Section Descent.
Variable kMaxHeight : Z.
Variables (pm : PMem) (hp : SkiplistNode.Heap) (header : Z).
Variable levels : Z -> list Z.
Variable key : Slice.
Variable fuel : nat.
Hypothesis Hwf : skiplist_wf kMaxHeight pm hp header levels.
Hypothesis Hfuel :
  forall i, 1 <= i <= kMaxHeight -> (length (levels i) < fuel)%nat.

Lemma levels_in_base (d : nat) :
  forall i n, i = 1 + Z.of_nat d -> i <= kMaxHeight ->
    n ∈ levels i -> n ∈ levels 1.
Proof.
  induction d as [|d IH]; intros i n Hi Hle Hin.
  - now replace i with 1 in Hin by lia.
  - apply (IH (i - 1)); [lia | lia |].
    apply (wf_nested _ _ _ _ _ Hwf i n); [lia | exact Hin].
Qed.

Lemma level_member_has_key i n :
  1 <= i <= kMaxHeight -> n ∈ levels i ->
  exists kn, SkiplistNode.Key pm hp n = Ok kn.
Proof.
  intros Hi Hin.
  assert (Hbase : n ∈ levels 1).
  { apply (levels_in_base (Z.to_nat (i - 1)) i n); [lia | lia | exact Hin]. }
  destruct (wf_sorted _ _ _ _ _ Hwf) as [Hkeys _].
  rewrite Forall_forall in Hkeys. now apply Hkeys.
Qed.

(** One level of the descent. *)
Lemma scan_level i prev sp :
  1 <= i <= kMaxHeight -> on_level pm hp header levels key i prev ->
  exists cs passed rest,
    ((prev = header /\ levels i = cs) \/
     (exists e1, levels i = e1 ++ prev :: cs /\ below pm hp key prev)) /\
    cs = passed ++ rest /\
    Forall (below pm hp key) passed /\
    match rest with
    | [] => True
    | n :: _ => not_below pm hp key n
    end /\
    Skiplist.Recompute kMaxHeight fuel pm hp
        (Skiplist.set_prevs sp i prev) key i =
      Ok (Skiplist.set_nexts
            (Skiplist.set_prevs sp i (default prev (last passed)))
            i (default nullptr (head rest))).
Proof.
  intros Hi Hon.
  assert (Hcs : exists cs,
            level_chain hp i prev cs /\
            (forall n, n ∈ cs -> n ∈ levels i) /\
            (length cs <= length (levels i))%nat /\
            ((prev = header /\ levels i = cs) \/
             (exists e1, levels i = e1 ++ prev :: cs /\ below pm hp key prev))).
  { destruct Hon as [->|[Hin Hb]].
    - exists (levels i). split; [apply (wf_chain _ _ _ _ _ Hwf); exact Hi|].
      split; [auto|]. split; [lia|]. left. auto.
    - apply list_elem_of_split in Hin as (e1 & e2 & He).
      exists e2. split.
      { apply (level_chain_suffix hp i e1 header). rewrite <- He.
        apply (wf_chain _ _ _ _ _ Hwf). exact Hi. }
      split.
      { intros n Hn. rewrite He. apply elem_of_app. right.
        apply elem_of_cons. now right. }
      split; [rewrite He, length_app; cbn; lia|].
      right. exists e1. auto. }
  destruct Hcs as (cs & Hchain & Hsub & Hlen & Hshape).
  destruct (Recompute_scan kMaxHeight pm hp key i ltac:(lia) cs prev
              (Skiplist.set_prevs sp i prev) fuel)
    as (passed & rest & Hsplit & Hpassed & Hhead & _ & Hrun).
  - cbn. apply lookup_insert_eq.
  - exact Hchain.
  - apply Forall_forall. intros n Hn.
    apply (level_member_has_key i); [exact Hi | auto].
  - specialize (Hfuel i Hi). lia.
  - exists cs, passed, rest. split; [exact Hshape|].
    split; [exact Hsplit|]. split; [exact Hpassed|]. split; [exact Hhead|].
    rewrite Hrun. now rewrite set_prevs_twice.
Qed.
End Descent.

Lemma last_behind {A : Type} (e1 l : list A) (x d : A) :
  default d (last (e1 ++ x :: l)) = default x (last l).
Proof.
  rewrite last_app_cons, last_cons. now destruct (last l).
Qed.

Section Window.
Variable kMaxHeight : Z.
Variables (pm : PMem) (hp : SkiplistNode.Heap) (header : Z).
Variable levels : Z -> list Z.
Variable key : Slice.
Variable fuel : nat.
Hypothesis Hwf : skiplist_wf kMaxHeight pm hp header levels.
Hypothesis Hfuel :
  forall i, 1 <= i <= kMaxHeight -> (length (levels i) < fuel)%nat.

Lemma on_level_drop i prev :
  1 < i <= kMaxHeight ->
  on_level pm hp header levels key i prev ->
  on_level pm hp header levels key (i - 1) prev.
Proof.
  intros Hi [->|[Hin Hb]]; [now left|]. right. split; [|exact Hb].
  now apply (wf_nested _ _ _ _ _ Hwf i prev).
Qed.

Lemma sorted_prefix_below e1 prev cs :
  levels 1 = e1 ++ prev :: cs -> below pm hp key prev ->
  Forall (below pm hp key) e1.
Proof.
  intros He (kp & Hkp & Hlt).
  destruct (wf_sorted _ _ _ _ _ Hwf) as [_ Hs]. rewrite He in Hs.
  apply Forall_forall. intros x Hx.
  destruct (StronglySorted_app_1_elem_of _ _ _ x prev Hs Hx)
    as (kx & kp' & Hkx & Hkp' & Hxp).
  { apply elem_of_cons. now left. }
  rewrite Hkp in Hkp'. injection Hkp' as <-.
  exists kx. split; [exact Hkx|]. exact (below_step _ _ _ Hxp Hlt).
Qed.

(** The descent from level [level] down to level 1 ends with the window of
    the target at level 1. *)
Lemma Seek_levels_window :
  forall (level : nat) prev sp,
    (1 <= level)%nat -> Z.of_nat level <= kMaxHeight ->
    on_level pm hp header levels key (Z.of_nat level) prev ->
    exists sp' passed rest,
      Skiplist.Seek_levels kMaxHeight fuel pm hp level prev sp key = Ok sp' /\
      levels 1 = passed ++ rest /\
      Forall (below pm hp key) passed /\
      Forall (not_below pm hp key) rest /\
      Skiplist.prevs sp' !! 1 = Some (default header (last passed)) /\
      Skiplist.nexts sp' !! 1 = Some (default nullptr (head rest)).
Proof.
  induction level as [|b IH]; intros prev sp Hpos Hle Hon; [lia|].
  set (i := Z.of_nat (S b)) in *.
  assert (Hi : 1 <= i <= kMaxHeight) by (subst i; lia).
  destruct (scan_level kMaxHeight pm hp header levels key fuel Hwf Hfuel
              i prev sp Hi Hon)
    as (cs & passed & rest & Hshape & Hcs & Hpassed & Hhead & Hrun).
  cbn [Skiplist.Seek_levels]. fold i. rewrite Hrun. cbn.
  rewrite (cell_in_range kMaxHeight _ i (default prev (last passed)))
    by (try lia; apply lookup_insert_eq).
  cbn.
  destruct b as [|b'].
  - (* level 1: the window is final *)
    assert (Hi1 : i = 1) by (subst i; lia).
    cbn [Skiplist.Seek_levels]. rewrite Hi1 in *.
    destruct (wf_sorted _ _ _ _ _ Hwf) as [_ Hs].
    destruct Hshape as [[-> Hlv]|(e1 & Hlv & Hb)].
    + eexists. exists passed, rest. split; [reflexivity|].
      split; [now rewrite Hlv|]. split; [exact Hpassed|].
      split.
      { apply ascending_rest_not_below; [|exact Hhead].
        rewrite Hlv, Hcs in Hs. now apply StronglySorted_app_1_r in Hs. }
      cbn. split; apply lookup_insert_eq.
    + eexists. exists (e1 ++ prev :: passed), rest. split; [reflexivity|].
      split; [rewrite Hlv, Hcs, <- app_assoc; reflexivity|].
      split.
      { apply Forall_app. split; [exact (sorted_prefix_below e1 prev cs Hlv Hb)|].
        constructor; assumption. }
      split.
      { apply ascending_rest_not_below; [|exact Hhead].
        rewrite Hlv, Hcs in Hs.
        apply StronglySorted_app_1_r in Hs.
        apply StronglySorted_inv in Hs as [Hs _].
        now apply StronglySorted_app_1_r in Hs. }
      cbn. rewrite last_behind. split; apply lookup_insert_eq.
  - (* an upper level: drop down from the node reached *)
    assert (Hnext : on_level pm hp header levels key (i - 1)
                      (default prev (last passed))).
    { apply on_level_drop; [subst i; lia|].
      destruct (last passed) as [x|] eqn:Hlast; cbn; [|exact Hon].
      right.
      assert (Hx : x ∈ passed).
      { apply last_Some in Hlast as [l' ->]. apply elem_of_app. right.
        apply elem_of_cons. now left. }
      split.
      - assert (Hxcs : x ∈ cs) by (rewrite Hcs; now apply elem_of_prefix).
        destruct Hshape as [[_ <-]|(e1 & -> & _)]; [exact Hxcs|].
        apply elem_of_app. right. apply elem_of_cons. now right.
      - rewrite Forall_forall in Hpassed. now apply Hpassed. }
    replace (i - 1) with (Z.of_nat (S b')) in Hnext by (subst i; lia).
    apply IH; [lia | lia | exact Hnext].
Qed.
End Window.

Lemma deref_ok_nonnull hp n nd :
  SkiplistNode.deref hp n = Ok nd -> n <> nullptr.
Proof.
  unfold SkiplistNode.deref. destruct (Z.eqb_spec n nullptr); [discriminate | auto].
Qed.

Lemma pm_deref_ok_nonnull (pm : PMem) p e :
  DLDataEntry.deref pm p = Ok e -> p <> nullptr.
Proof.
  unfold DLDataEntry.deref. destruct (Z.eqb_spec p nullptr); [discriminate | auto].
Qed.

Lemma record_of_deref hp n nd :
  SkiplistNode.deref hp n = Ok nd -> record_of hp n = SkiplistNode.data_entry nd.
Proof. intros H. unfold record_of. now rewrite H. Qed.

(** [Skiplist::Seek] leaves in [next_data_entry] the record of the first
    node of level 1 whose key is not below the target, or null. *)
Lemma Skiplist_Seek_window
    (kMaxHeight : Z) (pm : PMem) (hp : SkiplistNode.Heap) (sl : Skiplist.t)
    (levels : Z -> list Z) (key : Slice) (fuel : nat) (sp : Skiplist.Splice) :
  skiplist_wf kMaxHeight pm hp (Skiplist.header sl) levels ->
  (forall i, 1 <= i <= kMaxHeight -> (length (levels i) < fuel)%nat) ->
  exists sp' passed rest,
    Skiplist.Seek kMaxHeight fuel pm hp sl key sp = Ok sp' /\
    levels 1 = passed ++ rest /\
    Forall (below pm hp key) passed /\
    Forall (not_below pm hp key) rest /\
    Skiplist.next_data_entry sp' =
      Some (match rest with
            | [] => nullptr
            | n :: _ => record_of hp n
            end).
Proof.
  intros Hwf Hfuel.
  pose proof (wf_height _ _ _ _ _ Hwf) as HK.
  destruct (Seek_levels_window kMaxHeight pm hp (Skiplist.header sl) levels key
              fuel Hwf Hfuel (Z.to_nat kMaxHeight) (Skiplist.header sl) sp)
    as (sp' & passed & rest & Hrun & Hlv & Hpassed & Hrest & Hpv & Hnx);
    [lia | lia | now left |].
  unfold Skiplist.Seek. fold (Skiplist.header sl). rewrite Hrun. cbn.
  rewrite (cell_in_range kMaxHeight _ 1 _ ltac:(lia) Hpv). cbn.
  rewrite (cell_in_range kMaxHeight _ 1 _ ltac:(lia) Hnx). cbn.
  assert (Hnode : forall n, n ∈ levels 1 ->
            exists nd, SkiplistNode.deref hp n = Ok nd).
  { intros n Hn. destruct (wf_records _ _ _ _ _ Hwf n Hn) as (nd & _ & Hd & _).
    now exists nd. }
  assert (Hprev : exists pn,
            SkiplistNode.deref hp (default (Skiplist.header sl) (last passed))
            = Ok pn).
  { destruct (last passed) as [x|] eqn:Hlast; cbn.
    - apply Hnode. rewrite Hlv. apply elem_of_prefix.
      apply last_Some in Hlast as [l' ->]. apply elem_of_middle.
    - exact (wf_header _ _ _ _ _ Hwf). }
  destruct Hprev as [pn Hpn]. rewrite Hpn. cbn.
  destruct rest as [|n rest'].
  - cbn. eexists. exists passed, []. split; [reflexivity|]. auto.
  - destruct (Hnode n) as [nd Hnd].
    { rewrite Hlv. apply elem_of_middle. }
    cbn. destruct (Z.eqb_spec n nullptr) as [->|_].
    { now apply deref_ok_nonnull in Hnd. }
    rewrite Hnd. cbn. eexists. exists passed, (n :: rest').
    split; [reflexivity|]. split; [exact Hlv|]. split; [exact Hpassed|].
    split; [exact Hrest|]. cbn. now rewrite (record_of_deref _ _ _ Hnd).
Qed.

Lemma not_below_and_below (pm : PMem) hp key m :
  below pm hp key m -> not_below pm hp key m -> False.
Proof.
  intros (k1 & H1 & Hlt) (k2 & H2 & Hle).
  rewrite H1 in H2. injection H2 as <-. lia.
Qed.

(** C2.  On a stable skip list whose level-1 chain holds the nodes of the
    records of the collection, in the order of the chain on PMem,
    [SortedIterator::Seek(k)] returns with the nodes of level 1 split into
    those whose key is less than [k] and the rest, whose key is greater than
    or equal to [k]: the iterator rests on the record of the first node of
    the rest, the record with the smallest key that is not less than [k],
    and is invalid when there is none.  A [Prev] that follows rests on the
    nearest record before it that is not delete-marked, the record with the
    largest key below [k] when all records are live. *)
Theorem seek_lower_bound
    (offset2addr : Z -> Z) (kMaxHeight : Z) (pm : PMem) (hp : SkiplistNode.Heap)
    (it : SortedIterator.t) (levels : Z -> list Z) (hdr : Z) (key : Slice)
    (fuel : nat) :
  skiplist_wf kMaxHeight pm hp
    (Skiplist.header (SortedIterator.skiplist_ it)) levels ->
  (forall i, 1 <= i <= kMaxHeight -> (length (levels i) < fuel)%nat) ->
  sorted_chain offset2addr pm hdr (map (record_of hp) (levels 1)) ->
  (exists hn,
     SkiplistNode.deref hp (Skiplist.header (SortedIterator.skiplist_ it))
       = Ok hn /\
     SkiplistNode.data_entry hn = hdr) ->
  exists passed rest,
    levels 1 = passed ++ rest /\
    Forall (below pm hp key) passed /\
    Forall (not_below pm hp key) rest /\
    (forall n m, head rest = Some n -> m ∈ levels 1 -> not_below pm hp key m ->
       m = n \/ node_lt pm hp n m) /\
    let it' := SortedIterator.set_current it
                 (match rest with
                  | [] => nullptr
                  | n :: _ => record_of hp n
                  end) in
    SortedIterator.Seek kMaxHeight fuel pm hp it key = Ok it' /\
    (rest = [] -> SortedIterator.Valid it' = false) /\
    (rest <> [] ->
       SortedIterator.Valid it' = true /\
       (exists e, DLDataEntry.deref pm (SortedIterator.current it') = Ok e /\
                  Slice_compare key (DLDataEntry.Key e) <= 0) /\
       SortedIterator.Prev offset2addr fuel pm hp it' =
         Ok (step_to it'
               (first_live pm (reverse (map (record_of hp) passed))))).
Proof.
  intros Hwf Hfuel Hchain Hhdr.
  destruct (Skiplist_Seek_window kMaxHeight pm hp (SortedIterator.skiplist_ it)
              levels key fuel Skiplist.fresh_splice Hwf Hfuel)
    as (sp' & passed & rest & Hrun & Hlv & Hpassed & Hrest & Hnd).
  exists passed, rest. split; [exact Hlv|]. split; [exact Hpassed|].
  split; [exact Hrest|]. split.
  { intros n m Hn Hm Hnb. rewrite Hlv in Hm.
    apply elem_of_app in Hm as [Hm|Hm].
    - exfalso. rewrite Forall_forall in Hpassed.
      exact (not_below_and_below pm hp key m (Hpassed m Hm) Hnb).
    - destruct rest as [|n' rest']; [discriminate|]. cbn in Hn.
      injection Hn as ->. apply elem_of_cons in Hm as [->|Hm]; [now left|].
      right. destruct (wf_sorted _ _ _ _ _ Hwf) as [_ Hs].
      rewrite Hlv in Hs. apply StronglySorted_app_1_r in Hs.
      apply StronglySorted_inv in Hs as [_ Hall].
      rewrite Forall_forall in Hall. now apply Hall. }
  cbv zeta. split.
  { unfold SortedIterator.Seek. rewrite Hrun. cbn. rewrite Hnd. reflexivity. }
  split; [intros ->; reflexivity|].
  intros Hne. destruct rest as [|n rest']; [contradiction|].
  assert (Hn : n ∈ levels 1) by (rewrite Hlv; apply elem_of_middle).
  destruct (wf_records _ _ _ _ _ Hwf n Hn) as (nd & e & Hdn & Hde & Hkey).
  rewrite (record_of_deref _ _ _ Hdn).
  split.
  { rewrite valid_set_current.
    apply pm_deref_ok_nonnull in Hde.
    destruct (Z.eqb_spec (SkiplistNode.data_entry nd) nullptr);
      [contradiction | reflexivity]. }
  split.
  { exists e. split; [exact Hde|].
    apply Forall_cons in Hrest as [(kn & Hkn & Hle) _].
    rewrite Hkey in Hkn. injection Hkn as <-. exact Hle. }
  assert (Hj : map (record_of hp) (levels 1) !! length passed
               = Some (SkiplistNode.data_entry nd)).
  { rewrite Hlv, map_app. cbn [map].
    rewrite lookup_app_r by (rewrite length_map; lia).
    rewrite length_map, Nat.sub_diag. cbn.
    now rewrite (record_of_deref _ _ _ Hdn). }
  assert (Hlen : (length (map (record_of hp) (levels 1%Z)) < fuel)%nat).
  { rewrite length_map. apply Hfuel.
    pose proof (wf_height _ _ _ _ _ Hwf). lia. }
  destruct (chain_steps offset2addr pm hp (SortedIterator.skiplist_ it) hdr
              (map (record_of hp) (levels 1)) (length passed)
              (SkiplistNode.data_entry nd) fuel Hchain Hhdr Hj Hlen)
    as [_ HP].
  cbv zeta in HP. unfold SortedIterator.set_current. cbn [SortedIterator.skiplist_].
  rewrite HP. do 3 f_equal.
  rewrite Hlv, map_app.
  rewrite <- (length_map (record_of hp) passed) at 1.
  now rewrite take_app_length.
Qed.

(** *** The collection "a", "c", "e", "g" *)

Lemma aceg_wf :
  skiplist_wf 3 (aceg_pmem EmptyString) (aceg_heap EmptyString) 1000 aceg_levels.
Proof.
  split.
  - lia.
  - eexists. vm_compute. reflexivity.
  - intros i Hi.
    assert (Hc : i = 1 \/ i = 2 \/ i = 3) by lia.
    destruct Hc as [-> | [-> | ->]]; cbn;
      repeat (eapply level_link; [vm_compute; reflexivity | discriminate |]);
      apply level_end; vm_compute; reflexivity.
  - intros i n Hi.
    assert (Hc : i = 2 \/ i = 3) by lia.
    destruct Hc as [-> | ->].
    + change (n ∈ [3000; 5000] -> n ∈ [2000; 3000; 4000; 5000]).
      rewrite !elem_of_cons, !elem_of_nil. tauto.
    + change (n ∈ [3000] -> n ∈ [3000; 5000]).
      rewrite !elem_of_cons, !elem_of_nil. tauto.
  - exact aceg_level1_ascending.
  - intros n Hn. cbn in Hn. rewrite !elem_of_cons, elem_of_nil in Hn.
    destruct Hn as [-> | [-> | [-> | [-> | []]]]];
      do 2 eexists; (split; [vm_compute; reflexivity|]);
      split; vm_compute; reflexivity.
Qed.

Lemma aceg_chain :
  sorted_chain block_offset2addr (aceg_pmem EmptyString) 4096
    (map (record_of (aceg_heap EmptyString)) (aceg_levels 1)).
Proof.
  change (map (record_of (aceg_heap EmptyString)) (aceg_levels 1))
    with [4160; 4224; 4288; 4352].
  split.
  - split; [discriminate|]. eexists. split; [vm_compute; reflexivity|].
    split; reflexivity.
  - intros j r Hj.
    destruct j as [|[|[|[|j]]]]; cbn in Hj; try discriminate;
      injection Hj as <-; (split; [discriminate|]);
      eexists; (split; [vm_compute; reflexivity|]);
      (split; [cbn; auto|]); split; reflexivity.
Qed.

(** Scenario 5 of the specification: seeking "f" among the live records
    "a", "c", "e", "g" rests on the record "g", and [Prev] then rests on the
    record "e". *)
Lemma seek_lower_bound_witness :
  (skiplist_wf 3 (aceg_pmem EmptyString) (aceg_heap EmptyString)
     (Skiplist.header (SortedIterator.skiplist_ aceg_iterator)) aceg_levels /\
   (forall i, 1 <= i <= 3 -> (length (aceg_levels i) < 5)%nat) /\
   sorted_chain block_offset2addr (aceg_pmem EmptyString) 4096
     (map (record_of (aceg_heap EmptyString)) (aceg_levels 1)) /\
   (exists hn,
      SkiplistNode.deref (aceg_heap EmptyString)
        (Skiplist.header (SortedIterator.skiplist_ aceg_iterator)) = Ok hn /\
      SkiplistNode.data_entry hn = 4096)) /\
  (exists passed rest,
     aceg_levels 1 = passed ++ rest /\
     Forall (below (aceg_pmem EmptyString) (aceg_heap EmptyString) "f") passed /\
     Forall (not_below (aceg_pmem EmptyString) (aceg_heap EmptyString) "f") rest /\
     SortedIterator.Seek 3 5 (aceg_pmem EmptyString) (aceg_heap EmptyString)
       aceg_iterator "f"
     = Ok (SortedIterator.set_current aceg_iterator
             (match rest with
              | [] => nullptr
              | n :: _ => record_of (aceg_heap EmptyString) n
              end))) /\
  SortedIterator.Seek 3 5 (aceg_pmem EmptyString) (aceg_heap EmptyString)
    aceg_iterator "f"
  = Ok (SortedIterator.set_current aceg_iterator 4352) /\
  DLDataEntry.Key <$> aceg_pmem EmptyString !! 4352 = Some "g"%string /\
  SortedIterator.Prev block_offset2addr 5 (aceg_pmem EmptyString)
    (aceg_heap EmptyString) (SortedIterator.set_current aceg_iterator 4352)
  = Ok (true, SortedIterator.set_current aceg_iterator 4288) /\
  DLDataEntry.Key <$> aceg_pmem EmptyString !! 4288 = Some "e"%string.
Proof.
  pose proof aceg_wf as H1.
  assert (H2 : forall i, 1 <= i <= 3 -> (length (aceg_levels i) < 5)%nat).
  { intros i Hi. assert (Hc : i = 1 \/ i = 2 \/ i = 3) by lia.
    destruct Hc as [-> | [-> | ->]]; cbn; lia. }
  pose proof aceg_chain as H3.
  assert (H4 : exists hn,
      SkiplistNode.deref (aceg_heap EmptyString)
        (Skiplist.header (SortedIterator.skiplist_ aceg_iterator)) = Ok hn /\
      SkiplistNode.data_entry hn = 4096).
  { eexists. split; vm_compute; reflexivity. }
  split; [auto|].
  split.
  { destruct (seek_lower_bound block_offset2addr 3 (aceg_pmem EmptyString)
                (aceg_heap EmptyString) aceg_iterator aceg_levels 4096 "f" 5
                H1 H2 H3 H4)
      as (passed & rest & Hlv & Hp & Hr & _ & Hseek & _).
    exists passed, rest. auto. }
  split; [vm_compute; reflexivity|].
  split; [vm_compute; reflexivity|].
  split; vm_compute; reflexivity.
Defined.

(** With every key behind the 8-byte prefix of its collection and the target
    given in the same form, [Key] returns "g" after the seek and "e" after
    the [Prev]. *)
Example seek_f_with_collection_prefix :
  let pm := aceg_pmem "00000001" in
  let hp := aceg_heap "00000001" in
  exists it1 it2,
    SortedIterator.Seek 3 5 pm hp aceg_iterator "00000001f" = Ok it1 /\
    SortedIterator.Key pm it1 = Ok "g"%string /\
    SortedIterator.Prev block_offset2addr 5 pm hp it1 = Ok (true, it2) /\
    SortedIterator.Key pm it2 = Ok "e"%string.
Proof.
  do 2 eexists. split; [vm_compute; reflexivity|].
  split; [vm_compute; reflexivity|].
  split; vm_compute; reflexivity.
Qed.


(** * Further properties of the code *)

(** ** Hints and the slot table *)

Lemma hint_fields (hash_str : Slice -> Z) (B S G n : Z) (key : Slice) :
  0 <= n <= 32 -> B = 2 ^ n -> 0 < G < 2 ^ 32 ->
  0 <= hash_str key < 2 ^ 64 ->
  let ht := HashTable.new B S G in
  let hint := HashTable.GetHint hash_str ht key in
  HashTable.bucket hint = hash_str key mod B /\
  HashTable.slot hint = HashTable.bucket hint / G /\
  HashTable.slots_len ht = B / G.
Proof.
  intros Hn HB HG Hh. cbv zeta.
  assert (Hpow : 0 < 2 ^ n) by (apply Z.pow_pos_nonneg; lia).
  assert (Hle : 2 ^ n <= 2 ^ 32) by (apply Z.pow_le_mono_r; lia).
  assert (Hmod : 0 <= hash_str key mod B < B) by (apply Z.mod_pos_bound; lia).
  unfold HashTable.GetHint, HashTable.get_slot_num, HashTable.get_bucket_num,
    HashTable.new.
  cbn [HashTable.num_hash_buckets_ HashTable.slot_grain_ HashTable.slots_len
       HashTable.bucket HashTable.slot].
  unfold u32, u64.
  rewrite (wrap_small 64 B) by lia.
  rewrite (wrap_small 32 G) by lia.
  rewrite (wrap_small 64 (B - 1)) by lia.
  assert (Hmask : Z.land (hash_str key) (B - 1) = hash_str key mod B).
  { subst B. apply land_pow2_mask. lia. }
  rewrite Hmask. rewrite (wrap_small 32 (hash_str key mod B)) by lia.
  auto.
Qed.

(** X1. The slot of a hint indexes [slots_], which the constructor sizes to
    [B / G] entries, exactly when the bucket lies below [G * (B / G)]; when
    the grain divides the bucket count that is every bucket, so the spin
    mutex of a hint always exists. *)
Theorem hint_slot_in_bounds
    (hash_str : Slice -> Z) (B S G n : Z) (key : Slice) :
  0 <= n <= 32 -> B = 2 ^ n -> 0 < G < 2 ^ 32 ->
  0 <= hash_str key < 2 ^ 64 ->
  let ht := HashTable.new B S G in
  let hint := HashTable.GetHint hash_str ht key in
  0 <= HashTable.slot hint /\
  (HashTable.slot hint < HashTable.slots_len ht <->
   HashTable.bucket hint < G * (B / G)) /\
  ((G | B) -> HashTable.slot hint < HashTable.slots_len ht).
Proof.
  intros Hn HB HG Hh ht hint.
  destruct (hint_fields hash_str B S G n key Hn HB HG Hh) as (Hb & Hs & Hl).
  fold ht in Hl. fold ht hint in Hb, Hs.
  assert (Hpow : 0 < B) by (subst B; apply Z.pow_pos_nonneg; lia).
  assert (Hmod : 0 <= hash_str key mod B < B) by (apply Z.mod_pos_bound; lia).
  rewrite Hs, Hl, Hb.
  set (b := hash_str key mod B) in *.
  assert (Hiff : b / G < B / G <-> b < G * (B / G)).
  { split; intros H.
    - pose proof (Z.mul_succ_div_gt b G ltac:(lia)) as Hgt.
      assert (G * Z.succ (b / G) <= G * (B / G))
        by (apply Z.mul_le_mono_nonneg_l; lia).
      lia.
    - apply Z.div_lt_upper_bound; lia. }
  split; [apply Z.div_pos; lia|]. split; [exact Hiff|].
  intros [z Hz]. apply Hiff.
  rewrite Hz, Z.div_mul by lia. lia.
Qed.

Lemma hint_slot_in_bounds_witness :
  let hash := fun k : Slice => 2654435761 * size k + 11 in
  (0 <= 4 <= 32 /\ 16 = 2 ^ 4 /\ 0 < 4 < 2 ^ 32 /\
   0 <= hash "key"%string < 2 ^ 64 /\ (4 | 16)) /\
  HashTable.slot (HashTable.GetHint hash (HashTable.new 16 128 4) "key")
    < HashTable.slots_len (HashTable.new 16 128 4).
Proof.
  intros hash.
  assert (H1 : 0 <= 4 <= 32) by lia.
  assert (H2 : 16 = 2 ^ 4) by reflexivity.
  assert (H3 : 0 < 4 < 2 ^ 32) by lia.
  assert (H4 : 0 <= hash "key"%string < 2 ^ 64) by (vm_compute; split; congruence).
  assert (H5 : (4 | 16)) by (exists 4; reflexivity).
  split; [auto 10|].
  exact (proj2 (proj2 (hint_slot_in_bounds hash 16 128 4 4 "key" H1 H2 H3 H4)) H5).
Defined.

(** With a grain that does not divide the bucket count the last buckets get
    a slot behind the end of [slots_]. *)
Remark hint_slot_out_of_bounds :
  let ht := HashTable.new 8 128 3 in
  let hint := HashTable.GetHint (fun _ => 6) ht "key" in
  HashTable.bucket hint = 6 /\ HashTable.slot hint = 2 /\
  HashTable.slots_len ht = 2.
Proof. repeat split. Qed.

(** ** User keys *)

Lemma substring_skip (p k : string) :
  substring (String.length p) (String.length k) (p ++ k) = k.
Proof.
  induction p as [|c p IH]; cbn; [apply substring_full | exact IH].
Qed.

Lemma length_append (p k : string) :
  String.length (p ++ k) = (String.length p + String.length k)%nat.
Proof.
  induction p as [|c p IH]; [reflexivity|].
  change (S (String.length (p ++ k)) = S (String.length p + String.length k)).
  now rewrite IH.
Qed.

Lemma UserKey_prefixed (p k : string) :
  String.length p = 8%nat -> Skiplist.UserKey (p ++ k)%string = Ok k.
Proof.
  intros Hp. unfold Skiplist.UserKey, size. rewrite length_append, Hp.
  destruct (Z.leb_spec 8 (Z.of_nat (8 + String.length k))); [|lia].
  replace (8 + String.length k - 8)%nat with (String.length k) by lia.
  rewrite <- Hp. now rewrite substring_skip.
Qed.

(** X2. On a valid iterator [Value] returns the value of the record it rests
    on and [Key] its key without the 8 leading bytes, whatever they are; on
    a record whose key is shorter than 8 bytes the size of the user key
    wraps around and [Key] reads outside the key. *)
Theorem iterator_key_strips_prefix
    (pm : PMem) (it : SortedIterator.t) (e : DLDataEntry.t) :
  SortedIterator.Valid it = true ->
  pm !! SortedIterator.current it = Some e ->
  SortedIterator.Value pm it = Ok (DLDataEntry.Value e) /\
  (forall p k, DLDataEntry.Key e = (p ++ k)%string -> String.length p = 8%nat ->
     SortedIterator.Key pm it = Ok k) /\
  (size (DLDataEntry.Key e) < 8 -> SortedIterator.Key pm it = Fault).
Proof.
  intros Hv He.
  assert (Hne : SortedIterator.current it <> nullptr).
  { unfold SortedIterator.Valid in Hv.
    destruct (Z.eqb_spec (SortedIterator.current it) nullptr); [discriminate|auto]. }
  unfold SortedIterator.Value, SortedIterator.Key. rewrite Hv. cbn [negb].
  rewrite (pm_deref_some pm _ e Hne He). cbn.
  split; [reflexivity|]. split.
  - intros p k Hk Hp. rewrite Hk. now apply UserKey_prefixed.
  - intros Hs. unfold Skiplist.UserKey.
    destruct (Z.leb_spec 8 (size (DLDataEntry.Key e))); [lia | reflexivity].
Qed.

Lemma iterator_key_strips_prefix_witness :
  let it := {| SortedIterator.skiplist_ := demo_list;
               SortedIterator.current := 4160 |} in
  (SortedIterator.Valid it = true /\
   abc_pmem !! SortedIterator.current it
     = Some (record DLDataEntry.SORTED_DATA_RECORD 0 2 "00000001a" "va")) /\
  SortedIterator.Value abc_pmem it = Ok "va"%string /\
  SortedIterator.Key abc_pmem it = Ok "a"%string.
Proof.
  intros it.
  assert (H1 : SortedIterator.Valid it = true) by reflexivity.
  assert (H2 : abc_pmem !! SortedIterator.current it
               = Some (record DLDataEntry.SORTED_DATA_RECORD 0 2 "00000001a" "va"))
    by (vm_compute; reflexivity).
  split; [auto|].
  destruct (iterator_key_strips_prefix abc_pmem it _ H1 H2) as (Hval & Hkey & _).
  split; [exact Hval|].
  exact (Hkey "00000001"%string "a"%string eq_refl eq_refl).
Defined.

(** ** Positions on a chain *)

Lemma drop_past_middle {A : Type} (l k : list A) (x : A) (n : nat) :
  n = length l -> drop (S n) (l ++ x :: k) = k.
Proof.
  intros ->. induction l as [|a l IH]; cbn; [now rewrite drop_0 | exact IH].
Qed.

Lemma forward_target {A : Type} (rs : list A) (j : nat) q l1 l2 :
  drop (S j) rs = l1 ++ q :: l2 ->
  rs !! (S j + length l1)%nat = Some q /\
  drop (S (S j + length l1)) rs = l2 /\
  take (S j + length l1) rs = take (S j) rs ++ l1.
Proof.
  intros Hd.
  assert (Hlen : (S j <= length rs)%nat).
  { destruct (Nat.le_gt_cases (S j) (length rs)) as [H|H]; [exact H|].
    rewrite drop_ge in Hd by lia. now destruct l1. }
  assert (Ht : length (take (S j) rs) = S j) by (apply length_take_le; lia).
  assert (Hrs : rs = (take (S j) rs ++ l1) ++ q :: l2).
  { rewrite <- app_assoc, <- Hd. now rewrite take_drop. }
  assert (Hl : length (take (S j) rs ++ l1) = (S j + length l1)%nat)
    by (rewrite length_app; lia).
  split_and!.
  - rewrite Hrs at 1. rewrite <- Hl. apply list_lookup_middle. reflexivity.
  - rewrite Hrs at 1. apply drop_past_middle. now rewrite Hl.
  - rewrite Hrs at 1. apply take_app_length'. now rewrite Hl.
Qed.

Lemma backward_target {A : Type} (rs : list A) (j : nat) q l1 l2 :
  reverse (take j rs) = l1 ++ q :: l2 ->
  rs !! length l2 = Some q /\
  take (length l2) rs = reverse l2 /\
  drop (S (length l2)) rs = reverse l1 ++ drop j rs.
Proof.
  intros Hr.
  assert (Ht : take j rs = reverse l2 ++ q :: reverse l1).
  { rewrite <- (reverse_involutive (take j rs)), Hr.
    rewrite reverse_app, reverse_cons, <- app_assoc. reflexivity. }
  assert (Hrs : rs = reverse l2 ++ q :: (reverse l1 ++ drop j rs)).
  { rewrite <- (take_drop j rs) at 1. rewrite Ht, <- app_assoc. reflexivity. }
  assert (Hl : length (reverse l2) = length l2) by apply length_reverse.
  split_and!.
  - rewrite Hrs at 1. rewrite <- Hl. apply list_lookup_middle. reflexivity.
  - rewrite Hrs at 1. apply take_app_length'. now rewrite Hl.
  - rewrite Hrs at 1. apply drop_past_middle. now rewrite Hl.
Qed.

Lemma first_live_behind_dead (pm : PMem) (l1 l2 : list Z) :
  Forall (fun r => is_live pm r = false) l1 ->
  first_live pm (l1 ++ l2) = first_live pm l2.
Proof.
  induction 1 as [|r l1 Hr _ IH]; cbn; [reflexivity|]. now rewrite Hr.
Qed.

Lemma filter_behind_dead (pm : PMem) (l1 l2 : list Z) :
  Forall (fun r => is_live pm r = false) l1 ->
  List.filter (is_live pm) (l1 ++ l2) = List.filter (is_live pm) l2.
Proof.
  induction 1 as [|r l1 Hr _ IH]; cbn; [reflexivity|]. now rewrite Hr.
Qed.

Lemma iterator_at (it : SortedIterator.t) :
  {| SortedIterator.skiplist_ := SortedIterator.skiplist_ it;
     SortedIterator.current := SortedIterator.current it |} = it.
Proof. now destruct it. Qed.

(** ** First position and round trips of the iterator *)

Lemma SeekToFirst_on_chain
    (offset2addr : Z -> Z) (pm : PMem) (hp : SkiplistNode.Heap)
    (it : SortedIterator.t) (hdr : Z) (rs : list Z) :
  sorted_chain offset2addr pm hdr rs ->
  (exists hn,
     SkiplistNode.deref hp (Skiplist.header (SortedIterator.skiplist_ it))
       = Ok hn /\
     SkiplistNode.data_entry hn = hdr) ->
  SortedIterator.SeekToFirst offset2addr pm hp it
    = Ok (SortedIterator.set_current it (default nullptr (head rs))).
Proof.
  intros Hchain (hn & Hhn & Hhdr).
  destruct (chain_header _ _ _ _ Hchain) as (Hn & e & He & _ & Hnext).
  unfold SortedIterator.SeekToFirst. rewrite Hhn. cbn. rewrite Hhdr.
  rewrite (pm_deref_some pm hdr e Hn He). cbn.
  now rewrite Hnext, head_lookup.
Qed.

(** X3. [SeekToFirst] rests on the first record of the chain, also when that
    record is delete-marked ([Next] and [Prev] skip such records,
    [SeekToFirst] does not), and leaves the iterator invalid on an empty
    collection. *)
Theorem seek_to_first_rests_on_first_record
    (offset2addr : Z -> Z) (pm : PMem) (hp : SkiplistNode.Heap)
    (it : SortedIterator.t) (hdr : Z) (rs : list Z) :
  sorted_chain offset2addr pm hdr rs ->
  (exists hn,
     SkiplistNode.deref hp (Skiplist.header (SortedIterator.skiplist_ it))
       = Ok hn /\
     SkiplistNode.data_entry hn = hdr) ->
  SortedIterator.SeekToFirst offset2addr pm hp it
    = Ok (SortedIterator.set_current it (default nullptr (head rs))) /\
  (rs = [] ->
     SortedIterator.Valid
       (SortedIterator.set_current it (default nullptr (head rs))) = false) /\
  (forall r, head rs = Some r ->
     SortedIterator.Valid (SortedIterator.set_current it r) = true /\
     (is_live pm r = false -> delete_marked pm r)).
Proof.
  intros Hchain Hhdr.
  split_and!.
  - now apply (SeekToFirst_on_chain offset2addr pm hp it hdr rs).
  - intros ->. reflexivity.
  - intros r Hr. rewrite head_lookup in Hr.
    destruct (chain_records _ _ _ _ Hchain 0%nat r Hr) as (Hrn & _).
    split.
    + rewrite valid_set_current.
      destruct (Z.eqb_spec r nullptr); [contradiction | reflexivity].
    + apply (chain_member_marks offset2addr pm hdr rs Hchain).
      apply list_elem_of_lookup. now exists 0%nat.
Qed.

Lemma dead_first_chain :
  sorted_chain block_offset2addr dead_first_pmem 4096 [4160; 4224; 4288; 4352].
Proof.
  split.
  - split; [discriminate|]. eexists. split; [vm_compute; reflexivity|].
    split; reflexivity.
  - intros j r Hj.
    destruct j as [|[|[|[|j]]]]; cbn in Hj; try discriminate;
      injection Hj as <-; (split; [discriminate|]);
      eexists; (split; [vm_compute; reflexivity|]);
      (split; [cbn; auto|]); split; reflexivity.
Qed.

Lemma demo_header_found :
  exists hn,
    SkiplistNode.deref header_only_heap (Skiplist.header demo_list) = Ok hn /\
    SkiplistNode.data_entry hn = 4096.
Proof. exists demo_header_node. split; [vm_compute; reflexivity | reflexivity]. Qed.

Lemma seek_to_first_rests_on_first_record_witness :
  (sorted_chain block_offset2addr dead_first_pmem 4096
     [4160; 4224; 4288; 4352] /\
   exists hn,
     SkiplistNode.deref header_only_heap
       (Skiplist.header (SortedIterator.skiplist_ aceg_iterator)) = Ok hn /\
     SkiplistNode.data_entry hn = 4096) /\
  SortedIterator.SeekToFirst block_offset2addr dead_first_pmem header_only_heap
    aceg_iterator
  = Ok (SortedIterator.set_current aceg_iterator 4160) /\
  is_live dead_first_pmem 4160 = false.
Proof.
  pose proof dead_first_chain as H1.
  pose proof demo_header_found as H2.
  split; [split; [exact H1 | exact H2]|].
  split; [|vm_compute; reflexivity].
  exact (proj1 (seek_to_first_rests_on_first_record block_offset2addr
                  dead_first_pmem header_only_heap aceg_iterator 4096
                  [4160; 4224; 4288; 4352] H1 H2)).
Defined.

Lemma Prev_loop_null (offset2addr : Z -> Z) (pm : PMem) cur skipped :
  walk offset2addr DLDataEntry.prev pm cur skipped nullptr ->
  Forall (delete_marked pm) skipped ->
  forall fuel, (length skipped < fuel)%nat ->
    SortedIterator.Prev_loop offset2addr fuel pm cur = Fault.
Proof.
  remember nullptr as q eqn:Hq0.
  induction 1 as [p e q Hp He Hq | p e r rs q Hp He Hr Hw IH];
    intros Hdel fuel Hfuel; subst q.
  - destruct fuel as [|fuel]; [cbn in Hfuel; lia|].
    cbn [SortedIterator.Prev_loop]. rewrite (pm_deref_some pm p e Hp He).
    cbn. rewrite Hq. reflexivity.
  - destruct fuel as [|fuel]; [cbn in Hfuel; lia|].
    cbn [SortedIterator.Prev_loop]. rewrite (pm_deref_some pm p e Hp He).
    cbn. rewrite Hr.
    pose proof (walk_start_nonnull _ _ _ _ _ _ Hw) as Hrn.
    apply Forall_cons in Hdel as [(e' & He' & Hty) Hdel].
    rewrite (pm_deref_some pm r e' Hrn He'). cbn.
    apply is_delete_true in Hty. rewrite Hty.
    apply IH; [reflexivity | exact Hdel | cbn in Hfuel; lia].
Qed.

(** X4. [Prev] has no null test inside its loop: when the walk back over
    delete-marked records arrives at a [prev] offset that maps to the null
    pointer, [Prev] reads the type of the record through null. *)
Theorem prev_faults_at_null
    (offset2addr : Z -> Z) (pm : PMem) (hp : SkiplistNode.Heap)
    (it : SortedIterator.t) (skipped : list Z) (fuel : nat) :
  walk offset2addr DLDataEntry.prev pm (SortedIterator.current it) skipped
    nullptr ->
  Forall (delete_marked pm) skipped ->
  (length skipped < fuel)%nat ->
  SortedIterator.Valid it = true /\
  SortedIterator.Prev offset2addr fuel pm hp it = Fault.
Proof.
  intros Hw Hdel Hfuel.
  pose proof (walk_start_nonnull _ _ _ _ _ _ Hw) as Hne.
  assert (Hv : SortedIterator.Valid it = true).
  { unfold SortedIterator.Valid.
    destruct (Z.eqb_spec (SortedIterator.current it) nullptr);
      [contradiction | reflexivity]. }
  split; [exact Hv|].
  unfold SortedIterator.Prev. rewrite Hv. cbn [negb].
  now rewrite (Prev_loop_null offset2addr pm _ skipped Hw Hdel fuel Hfuel).
Qed.

Lemma prev_faults_at_null_witness :
  let it := {| SortedIterator.skiplist_ := demo_list;
               SortedIterator.current := 4160 |} in
  (walk block_offset2addr DLDataEntry.prev orphan_pmem
     (SortedIterator.current it) [] nullptr /\
   Forall (delete_marked orphan_pmem) [] /\
   (length (@nil Z) < 1)%nat) /\
  SortedIterator.Prev block_offset2addr 1 orphan_pmem header_only_heap it = Fault.
Proof.
  intros it.
  assert (H1 : walk block_offset2addr DLDataEntry.prev orphan_pmem
                 (SortedIterator.current it) [] nullptr).
  { eapply walk_arrive; [discriminate | vm_compute; reflexivity | reflexivity]. }
  assert (H2 : Forall (delete_marked orphan_pmem) []) by constructor.
  assert (H3 : (length (@nil Z) < 1)%nat) by (cbn; lia).
  split; [auto|].
  exact (proj2 (prev_faults_at_null block_offset2addr orphan_pmem
                  header_only_heap it [] 1 H1 H2 H3)).
Defined.

Section RoundTrips.
Variable offset2addr : Z -> Z.
Variables (pm : PMem) (hp : SkiplistNode.Heap) (sl : Skiplist.t).
Variables (hdr : Z) (rs : list Z) (fuel : nat).
Hypothesis Hchain : sorted_chain offset2addr pm hdr rs.
Hypothesis Hhdr :
  exists hn, SkiplistNode.deref hp (Skiplist.header sl) = Ok hn /\
             SkiplistNode.data_entry hn = hdr.
Hypothesis Hfuel : (length rs < fuel)%nat.

Lemma Next_then_Prev (j : nat) (cur : Z) it' :
  rs !! j = Some cur -> is_live pm cur = true ->
  SortedIterator.Next offset2addr fuel pm
    {| SortedIterator.skiplist_ := sl; SortedIterator.current := cur |}
    = Ok (true, it') ->
  SortedIterator.Prev offset2addr fuel pm hp it'
    = Ok (true, {| SortedIterator.skiplist_ := sl;
                   SortedIterator.current := cur |}).
Proof.
  intros Hj Hlive Hnext.
  destruct (chain_steps offset2addr pm hp sl hdr rs j cur fuel
              Hchain Hhdr Hj Hfuel) as [HN _].
  cbv zeta in HN. rewrite HN in Hnext.
  pose proof (first_live_split pm (drop (S j) rs)) as Hsplit.
  destruct (first_live pm (drop (S j) rs)) as [q|]; [|discriminate].
  cbn in Hnext. injection Hnext as <-.
  destruct Hsplit as (l1 & l2 & Hd & Hl1 & _).
  destruct (forward_target rs j q l1 l2 Hd) as (Hq & _ & Htake).
  destruct (chain_steps offset2addr pm hp sl hdr rs _ q fuel
              Hchain Hhdr Hq Hfuel) as [_ HP].
  cbv zeta in HP. unfold SortedIterator.set_current. cbn.
  rewrite HP. rewrite Htake, (take_S_r _ _ _ Hj).
  rewrite !reverse_app, reverse_singleton.
  rewrite first_live_behind_dead by (now apply Forall_reverse).
  cbn. rewrite Hlive. reflexivity.
Qed.

Lemma Prev_then_Next (j : nat) (cur : Z) it' :
  rs !! j = Some cur -> is_live pm cur = true ->
  SortedIterator.Prev offset2addr fuel pm hp
    {| SortedIterator.skiplist_ := sl; SortedIterator.current := cur |}
    = Ok (true, it') ->
  SortedIterator.Next offset2addr fuel pm it'
    = Ok (true, {| SortedIterator.skiplist_ := sl;
                   SortedIterator.current := cur |}).
Proof.
  intros Hj Hlive Hprev.
  destruct (chain_steps offset2addr pm hp sl hdr rs j cur fuel
              Hchain Hhdr Hj Hfuel) as [_ HP].
  cbv zeta in HP. rewrite HP in Hprev.
  pose proof (first_live_split pm (reverse (take j rs))) as Hsplit.
  destruct (first_live pm (reverse (take j rs))) as [q|]; [|discriminate].
  cbn in Hprev. injection Hprev as <-.
  destruct Hsplit as (l1 & l2 & Hr & Hl1 & _).
  destruct (backward_target rs j q l1 l2 Hr) as (Hq & _ & Hdrop).
  destruct (chain_steps offset2addr pm hp sl hdr rs _ q fuel
              Hchain Hhdr Hq Hfuel) as [HN _].
  cbv zeta in HN. unfold SortedIterator.set_current. cbn.
  rewrite HN. rewrite Hdrop, (drop_S _ _ _ Hj).
  rewrite first_live_behind_dead by (now apply Forall_reverse).
  cbn. rewrite Hlive. reflexivity.
Qed.
End RoundTrips.

(** X5. On a sorted chain, from a record that is not delete-marked, a
    successful [Next] followed by [Prev] returns to that record, and so does
    a successful [Prev] followed by [Next]. *)
Theorem next_prev_round_trip
    (offset2addr : Z -> Z) (pm : PMem) (hp : SkiplistNode.Heap)
    (sl : Skiplist.t) (hdr : Z) (rs : list Z) (fuel : nat) (j : nat) (cur : Z) :
  sorted_chain offset2addr pm hdr rs ->
  (exists hn, SkiplistNode.deref hp (Skiplist.header sl) = Ok hn /\
              SkiplistNode.data_entry hn = hdr) ->
  (length rs < fuel)%nat ->
  rs !! j = Some cur -> is_live pm cur = true ->
  let it := {| SortedIterator.skiplist_ := sl; SortedIterator.current := cur |} in
  (forall it', SortedIterator.Next offset2addr fuel pm it = Ok (true, it') ->
     SortedIterator.Prev offset2addr fuel pm hp it' = Ok (true, it)) /\
  (forall it', SortedIterator.Prev offset2addr fuel pm hp it = Ok (true, it') ->
     SortedIterator.Next offset2addr fuel pm it' = Ok (true, it)).
Proof.
  intros Hchain Hhdr Hfuel Hj Hlive it. split; intros it' H.
  - exact (Next_then_Prev offset2addr pm hp sl hdr rs fuel Hchain Hhdr Hfuel
             j cur it' Hj Hlive H).
  - exact (Prev_then_Next offset2addr pm hp sl hdr rs fuel Hchain Hhdr Hfuel
             j cur it' Hj Hlive H).
Qed.

Lemma next_prev_round_trip_witness :
  let it := {| SortedIterator.skiplist_ := demo_list;
               SortedIterator.current := 4224 |} in
  (sorted_chain block_offset2addr dead_first_pmem 4096
     [4160; 4224; 4288; 4352] /\
   (exists hn,
      SkiplistNode.deref header_only_heap (Skiplist.header demo_list) = Ok hn /\
      SkiplistNode.data_entry hn = 4096) /\
   (length [4160; 4224; 4288; 4352] < 5)%nat /\
   [4160; 4224; 4288; 4352] !! 1%nat = Some 4224 /\
   is_live dead_first_pmem 4224 = true) /\
  SortedIterator.Next block_offset2addr 5 dead_first_pmem it
    = Ok (true, SortedIterator.set_current it 4352) /\
  SortedIterator.Prev block_offset2addr 5 dead_first_pmem header_only_heap
    (SortedIterator.set_current it 4352) = Ok (true, it).
Proof.
  intros it.
  pose proof dead_first_chain as H1.
  pose proof demo_header_found as H2.
  assert (H3 : (length [4160; 4224; 4288; 4352] < 5)%nat) by (cbn; lia).
  assert (H4 : [4160; 4224; 4288; 4352] !! 1%nat = Some 4224) by reflexivity.
  assert (H5 : is_live dead_first_pmem 4224 = true) by (vm_compute; reflexivity).
  assert (HN : SortedIterator.Next block_offset2addr 5 dead_first_pmem it
               = Ok (true, SortedIterator.set_current it 4352))
    by (vm_compute; reflexivity).
  split; [auto 10|]. split; [exact HN|].
  exact (proj1 (next_prev_round_trip block_offset2addr dead_first_pmem
                  header_only_heap demo_list 4096 [4160; 4224; 4288; 4352]
                  5 1 4224 H1 H2 H3 H4 H5) _ HN).
Defined.

(** ** Scans *)

Section Scans.
Variable offset2addr : Z -> Z.
Variables (pm : PMem) (hp : SkiplistNode.Heap) (sl : Skiplist.t).
Variables (hdr : Z) (rs : list Z) (fuel : nat).
Hypothesis Hchain : sorted_chain offset2addr pm hdr rs.
Hypothesis Hhdr :
  exists hn, SkiplistNode.deref hp (Skiplist.header sl) = Ok hn /\
             SkiplistNode.data_entry hn = hdr.
Hypothesis Hfuel : (length rs < fuel)%nat.

Lemma valid_on_chain (j : nat) (cur : Z) :
  rs !! j = Some cur ->
  SortedIterator.Valid
    {| SortedIterator.skiplist_ := sl; SortedIterator.current := cur |} = true.
Proof.
  intros Hj. destruct (chain_records _ _ _ _ Hchain j cur Hj) as [Hn _].
  unfold SortedIterator.Valid. cbn.
  destruct (Z.eqb_spec cur nullptr); [contradiction | reflexivity].
Qed.

Lemma collect_forward_from :
  forall (rounds j : nat) (cur : Z),
    rs !! j = Some cur -> (length rs - j < rounds)%nat ->
    collect_forward offset2addr rounds fuel pm
      {| SortedIterator.skiplist_ := sl; SortedIterator.current := cur |}
    = Ok (cur :: List.filter (is_live pm) (drop (S j) rs)).
Proof.
  induction rounds as [|r IH]; intros j cur Hj Hr; [lia|].
  pose proof (lookup_lt_Some _ _ _ Hj) as Hlt.
  cbn [collect_forward]. rewrite (valid_on_chain j cur Hj).
  destruct (chain_steps offset2addr pm hp sl hdr rs j cur fuel
              Hchain Hhdr Hj Hfuel) as [HN _].
  cbv zeta in HN. rewrite HN. cbn.
  pose proof (first_live_split pm (drop (S j) rs)) as Hsplit.
  destruct (first_live pm (drop (S j) rs)) as [q|].
  - destruct Hsplit as (l1 & l2 & Hd & Hl1 & Hq).
    destruct (forward_target rs j q l1 l2 Hd) as (Hqj & Hdrop & _).
    pose proof (lookup_lt_Some _ _ _ Hqj) as Hlt'.
    cbn. unfold SortedIterator.set_current. cbn.
    rewrite (IH _ q Hqj) by lia. rewrite Hdrop.
    rewrite Hd, filter_behind_dead by exact Hl1.
    cbn. rewrite Hq. reflexivity.
  - cbn. destruct r as [|r]; [lia|]. cbn.
    rewrite <- (app_nil_r (drop (S j) rs)).
    rewrite filter_behind_dead by exact Hsplit. reflexivity.
Qed.

Lemma collect_backward_from :
  forall (rounds j : nat) (cur : Z),
    rs !! j = Some cur -> (S j < rounds)%nat ->
    collect_backward offset2addr rounds fuel pm hp
      {| SortedIterator.skiplist_ := sl; SortedIterator.current := cur |}
    = Ok (cur :: List.filter (is_live pm) (reverse (take j rs))).
Proof.
  induction rounds as [|r IH]; intros j cur Hj Hr; [lia|].
  pose proof (lookup_lt_Some _ _ _ Hj) as Hlt.
  cbn [collect_backward]. rewrite (valid_on_chain j cur Hj).
  destruct (chain_steps offset2addr pm hp sl hdr rs j cur fuel
              Hchain Hhdr Hj Hfuel) as [_ HP].
  cbv zeta in HP. rewrite HP. cbn.
  pose proof (first_live_split pm (reverse (take j rs))) as Hsplit.
  destruct (first_live pm (reverse (take j rs))) as [q|].
  - destruct Hsplit as (l1 & l2 & Hrv & Hl1 & Hq).
    destruct (backward_target rs j q l1 l2 Hrv) as (Hqj & Htake & _).
    assert (Hlen : (length l2 < j)%nat).
    { assert (Hl : length (reverse (take j rs)) = j)
        by (rewrite length_reverse, length_take_le; lia).
      rewrite Hrv, length_app in Hl. cbn in Hl. lia. }
    cbn. unfold SortedIterator.set_current. cbn.
    rewrite (IH _ q Hqj) by lia. rewrite Htake, reverse_involutive.
    rewrite Hrv, filter_behind_dead by exact Hl1.
    cbn. rewrite Hq. reflexivity.
  - cbn. destruct r as [|r]; [lia|]. cbn.
    rewrite <- (app_nil_r (reverse (take j rs))).
    rewrite filter_behind_dead by exact Hsplit. reflexivity.
Qed.
End Scans.

(** X6. A scan of a sorted collection, [SeekToFirst] and then [Next] while
    the iterator is valid, terminates and visits the first record of the
    chain, delete-marked or not, followed by exactly the records behind it
    that are not delete-marked, in chain order. *)
Theorem forward_scan_visits_live_records
    (offset2addr : Z -> Z) (pm : PMem) (hp : SkiplistNode.Heap)
    (it : SortedIterator.t) (hdr : Z) (rs : list Z) (fuel : nat) :
  sorted_chain offset2addr pm hdr rs ->
  (exists hn,
     SkiplistNode.deref hp (Skiplist.header (SortedIterator.skiplist_ it))
       = Ok hn /\
     SkiplistNode.data_entry hn = hdr) ->
  (length rs < fuel)%nat ->
  exists it1,
    SortedIterator.SeekToFirst offset2addr pm hp it = Ok it1 /\
    collect_forward offset2addr (S (S (length rs))) fuel pm it1
    = Ok (match rs with
          | [] => []
          | r :: rs' => r :: List.filter (is_live pm) rs'
          end).
Proof.
  intros Hchain Hhdr Hfuel. eexists.
  split; [now apply (SeekToFirst_on_chain offset2addr pm hp it hdr rs)|].
  destruct rs as [|r rs'] eqn:Hrs; [reflexivity|]. rewrite <- Hrs in *.
  replace (default nullptr (head rs)) with r by (now rewrite Hrs).
  unfold SortedIterator.set_current.
  rewrite (collect_forward_from offset2addr pm hp (SortedIterator.skiplist_ it)
             hdr rs fuel Hchain Hhdr Hfuel _ 0 r).
  - now rewrite Hrs.
  - now rewrite Hrs.
  - lia.
Qed.

Lemma forward_scan_visits_live_records_witness :
  (sorted_chain block_offset2addr dead_first_pmem 4096
     [4160; 4224; 4288; 4352] /\
   (exists hn,
      SkiplistNode.deref header_only_heap
        (Skiplist.header (SortedIterator.skiplist_ aceg_iterator)) = Ok hn /\
      SkiplistNode.data_entry hn = 4096) /\
   (length [4160; 4224; 4288; 4352] < 5)%nat) /\
  exists it1,
    SortedIterator.SeekToFirst block_offset2addr dead_first_pmem
      header_only_heap aceg_iterator = Ok it1 /\
    collect_forward block_offset2addr 6 5 dead_first_pmem it1
    = Ok [4160; 4224; 4352].
Proof.
  pose proof dead_first_chain as H1.
  pose proof demo_header_found as H2.
  assert (H3 : (length [4160; 4224; 4288; 4352] < 5)%nat) by (cbn; lia).
  split; [auto|].
  destruct (forward_scan_visits_live_records block_offset2addr dead_first_pmem
              header_only_heap aceg_iterator 4096 [4160; 4224; 4288; 4352] 5
              H1 H2 H3) as (it1 & Hs & Hc).
  exists it1. split; [exact Hs|]. exact Hc.
Defined.

(** X7. A backward scan, [Prev] while the iterator is valid, from a record
    of a sorted chain terminates when the walk reaches the header and visits
    that record followed by exactly the records before it that are not
    delete-marked, nearest first. *)
Theorem backward_scan_visits_live_records
    (offset2addr : Z -> Z) (pm : PMem) (hp : SkiplistNode.Heap)
    (sl : Skiplist.t) (hdr : Z) (rs : list Z) (fuel : nat) (j : nat) (cur : Z) :
  sorted_chain offset2addr pm hdr rs ->
  (exists hn, SkiplistNode.deref hp (Skiplist.header sl) = Ok hn /\
              SkiplistNode.data_entry hn = hdr) ->
  (length rs < fuel)%nat ->
  rs !! j = Some cur ->
  collect_backward offset2addr (S (S j)) fuel pm hp
    {| SortedIterator.skiplist_ := sl; SortedIterator.current := cur |}
  = Ok (cur :: List.filter (is_live pm) (reverse (take j rs))).
Proof.
  intros Hchain Hhdr Hfuel Hj.
  apply (collect_backward_from offset2addr pm hp sl hdr rs fuel
           Hchain Hhdr Hfuel); [exact Hj | lia].
Qed.

Lemma backward_scan_visits_live_records_witness :
  (sorted_chain block_offset2addr dead_first_pmem 4096
     [4160; 4224; 4288; 4352] /\
   (exists hn,
      SkiplistNode.deref header_only_heap (Skiplist.header demo_list) = Ok hn /\
      SkiplistNode.data_entry hn = 4096) /\
   (length [4160; 4224; 4288; 4352] < 5)%nat /\
   [4160; 4224; 4288; 4352] !! 3%nat = Some 4352) /\
  collect_backward block_offset2addr 5 5 dead_first_pmem header_only_heap
    {| SortedIterator.skiplist_ := demo_list; SortedIterator.current := 4352 |}
  = Ok [4352; 4224].
Proof.
  pose proof dead_first_chain as H1.
  pose proof demo_header_found as H2.
  assert (H3 : (length [4160; 4224; 4288; 4352] < 5)%nat) by (cbn; lia).
  assert (H4 : [4160; 4224; 4288; 4352] !! 3%nat = Some 4352) by reflexivity.
  split; [auto 10|].
  exact (backward_scan_visits_live_records block_offset2addr dead_first_pmem
           header_only_heap demo_list 4096 [4160; 4224; 4288; 4352] 5 3 4352
           H1 H2 H3 H4).
Defined.

(** ** The draws behind a random height *)

Section Draws.
Variable kMaxHeight : Z.
Variable rng : Type.
Variable fast_random : rng -> Z * rng.

Lemma RandomHeight_loop_draws (fuel : nat) :
  forall height s h s',
    Skiplist.RandomHeight_loop kMaxHeight rng fast_random fuel height s
      = Ok (h, s') ->
    exists n : nat,
      h = height + Z.of_nat n /\
      (forall i, (i < n)%nat -> Z.land (draw fast_random i s) 1 <> 0) /\
      ((h < kMaxHeight /\ Z.land (draw fast_random n s) 1 = 0 /\
        s' = rng_after fast_random (S n) s) \/
       (kMaxHeight <= h /\ s' = rng_after fast_random n s)).
Proof.
  induction fuel as [|fuel IH]; intros height s h s' Hrun; [discriminate|].
  cbn [Skiplist.RandomHeight_loop] in Hrun.
  destruct (Z.ltb_spec height kMaxHeight) as [Hlt|Hge].
  - destruct (fast_random s) as [r s1] eqn:Hdraw.
    destruct (Z.eqb_spec (Z.land r 1) 0) as [Heven|Hodd]; cbn [negb] in Hrun.
    + injection Hrun as <- <-. exists 0%nat. split; [lia|].
      split; [intros i Hi; lia|]. left.
      unfold draw. cbn. rewrite Hdraw. cbn. auto.
    + destruct (IH _ _ _ _ Hrun) as (n & Hh & Hodds & Hend).
      exists (S n). split; [lia|]. split.
      * intros [|i] Hi.
        -- unfold draw. cbn. now rewrite Hdraw.
        -- unfold draw. cbn. rewrite Hdraw. cbn. apply Hodds. lia.
      * unfold draw in *. cbn. rewrite Hdraw. cbn. exact Hend.
  - injection Hrun as <- <-. exists 0%nat. split; [lia|].
    split; [intros i Hi; lia|]. right. split; [lia | reflexivity].
Qed.
End Draws.

(** X8. [RandomHeight] returns the number of odd values drawn in a row from
    the generator, capped at [kMaxHeight]: below the cap the next draw was
    even and the generator has advanced by one draw more than the height, at
    the cap no further value is drawn. *)
Theorem random_height_counts_odd_draws
    (kMaxHeight : Z) (rng : Type) (fast_random : rng -> Z * rng)
    (s : rng) (h : Z) (s' : rng) :
  0 <= kMaxHeight ->
  Skiplist.RandomHeight kMaxHeight rng fast_random s = Ok (h, s') ->
  exists n : nat,
    h = Z.of_nat n /\
    (forall i, (i < n)%nat -> Z.land (draw fast_random i s) 1 <> 0) /\
    ((h < kMaxHeight /\ Z.land (draw fast_random n s) 1 = 0 /\
      s' = rng_after fast_random (S n) s) \/
     (h = kMaxHeight /\ s' = rng_after fast_random n s)).
Proof.
  intros HK Hrun.
  destruct (RandomHeight_loop_range kMaxHeight rng fast_random
              (S (Z.to_nat kMaxHeight)) 0 s) as (h0 & s0 & Hrun0 & Hr);
    [lia | lia |].
  unfold Skiplist.RandomHeight in Hrun. rewrite Hrun in Hrun0.
  injection Hrun0 as <- <-.
  destruct (RandomHeight_loop_draws kMaxHeight rng fast_random _ _ _ _ _ Hrun)
    as (n & Hh & Hodds & Hend).
  exists n. split; [lia|]. split; [exact Hodds|].
  destruct Hend as [Hend|[Hge Hs]]; [now left|]. right. split; [lia | exact Hs].
Qed.

Lemma random_height_counts_odd_draws_witness :
  (0 <= 12 /\ Skiplist.RandomHeight 12 Z counter_random 1 = Ok (1, 3)) /\
  exists n : nat,
    1 = Z.of_nat n /\
    (forall i, (i < n)%nat -> Z.land (draw counter_random i 1) 1 <> 0) /\
    ((1 < 12 /\ Z.land (draw counter_random n 1) 1 = 0 /\
      3 = rng_after counter_random (S n) 1) \/
     (1 = 12 /\ 3 = rng_after counter_random n 1)).
Proof.
  assert (H1 : 0 <= 12) by lia.
  assert (H2 : Skiplist.RandomHeight 12 Z counter_random 1 = Ok (1, 3))
    by reflexivity.
  split; [auto|].
  exact (random_height_counts_odd_draws 12 Z counter_random 1 1 3 H1 H2).
Defined.

(** ** Construction of a skip list *)

Lemma init_levels_sets_null (fuel : nat) (K : Z) (header : Z) :
  forall hp i,
    1 <= i -> (Z.to_nat (K + 1 - i) < fuel)%nat ->
    exists hp',
      Skiplist_init_levels fuel K hp header i = Ok hp' /\
      SkiplistNode.nodes hp' = SkiplistNode.nodes hp /\
      (forall l, i <= l <= K ->
         SkiplistNode.cells hp' !! SkiplistNode.next_addr header l
         = Some nullptr) /\
      (forall a, (forall l, i <= l <= K -> a <> SkiplistNode.next_addr header l) ->
         SkiplistNode.cells hp' !! a = SkiplistNode.cells hp !! a).
Proof.
  induction fuel as [|fuel IH]; intros hp i Hi Hfuel; [lia|].
  cbn [Skiplist_init_levels].
  destruct (Z.leb_spec i K) as [Hle|Hgt].
  - unfold SkiplistNode.RelaxedSetNext, SkiplistNode.SetNext.
    destruct (Z.ltb_spec 0 i); [|lia]. cbn.
    destruct (IH {| SkiplistNode.cells :=
                      <[SkiplistNode.next_addr header i := nullptr]>
                        (SkiplistNode.cells hp);
                    SkiplistNode.nodes := SkiplistNode.nodes hp |} (i + 1))
      as (hp' & Hrun & Hnodes & Hset & Hframe); [lia | lia |].
    exists hp'. split; [exact Hrun|]. split; [exact Hnodes|]. split.
    + intros l Hl. destruct (Z.eq_dec l i) as [->|Hne].
      * rewrite Hframe.
        -- cbn. apply lookup_insert_eq.
        -- intros l' Hl'. unfold SkiplistNode.next_addr. lia.
      * apply Hset. lia.
    + intros a Ha. rewrite Hframe by (intros l Hl; apply Ha; lia).
      cbn. apply lookup_insert_ne. apply not_eq_sym, Ha. lia.
  - exists hp. split; [reflexivity|]. split; [reflexivity|].
    split; [intros l Hl; lia | reflexivity].
Qed.

Lemma Skiplist_new_runs
    (K : Z) (malloc : Z -> Z) (hp : SkiplistNode.Heap) (h : Z) (n : string)
    (i : Z) :
  1 <= K < 2 ^ 16 ->
  0 <= malloc (SkiplistNode.NewNode_size n K) ->
  let space := malloc (SkiplistNode.NewNode_size n K) in
  let header := space + 8 * K in
  exists hp' hn,
    Skiplist_new K malloc hp h n i
      = Ok ({| Skiplist.header_ := header; Skiplist.name_ := n;
               Skiplist.id_ := u64 i |}, hp') /\
    SkiplistNode.deref hp' header = Ok hn /\
    SkiplistNode.height hn = K /\
    SkiplistNode.data_entry hn = h /\
    (forall l, 1 <= l <= K -> SkiplistNode.Next hp' header l = Ok nullptr) /\
    (forall q, q <> header ->
       SkiplistNode.nodes hp' !! q = SkiplistNode.nodes hp !! q) /\
    (forall a, a < space \/ header <= a ->
       SkiplistNode.cells hp' !! a = SkiplistNode.cells hp !! a).
Proof.
  intros HK Hm space header.
  assert (Hne : header <> nullptr) by (unfold header, nullptr; lia).
  assert (Hu : u16 K = K) by (apply wrap_small; lia).
  unfold Skiplist_new. rewrite Hu.
  rewrite new_node_stores by exact Hne. cbn [fst snd].
  fold space. fold header.
  match goal with
  | |- context [Skiplist_init_levels ?f K ?hp1 header 1] =>
      destruct (init_levels_sets_null f K header hp1 1)
        as (hp' & Hrun & Hnodes & Hset & Hframe); [lia | lia |]
  end.
  rewrite Hrun. cbn.
  exists hp'. eexists. split; [reflexivity|].
  split.
  { unfold SkiplistNode.deref. destruct (Z.eqb_spec header nullptr);
      [contradiction|]. rewrite Hnodes. cbn. now rewrite lookup_insert_eq. }
  unfold SkiplistNode.MaybeCacheKey.
  split; [destruct (SkiplistNode.caches_key _ _); reflexivity|].
  split; [destruct (SkiplistNode.caches_key _ _); reflexivity|].
  split.
  { intros l Hl. unfold SkiplistNode.Next. now rewrite (Hset l Hl). }
  split.
  { intros q Hq. rewrite Hnodes. cbn. now apply lookup_insert_ne. }
  intros a Ha. rewrite Hframe; [reflexivity|].
  intros l Hl. unfold SkiplistNode.next_addr, header. lia.
Qed.

(** X9. With a successful allocation the constructor of [Skiplist] yields a
    header node of height [kMaxHeight] for the header record whose pointer
    is null at every level from 1 to [kMaxHeight]: an empty skip list that
    satisfies the topology invariant.  Nodes already on the heap and cells
    outside the pointer array of the header are left as they were. *)
Theorem skiplist_new_is_empty
    (K : Z) (malloc : Z -> Z) (hp : SkiplistNode.Heap) (h : Z) (n : string)
    (i : Z) (pm : PMem) :
  1 <= K < 2 ^ 16 ->
  0 < malloc (SkiplistNode.NewNode_size n K) ->
  exists sl hp',
    Skiplist_new K malloc hp h n i = Ok (sl, hp') /\
    Skiplist.header sl = malloc (SkiplistNode.NewNode_size n K) + 8 * K /\
    Skiplist.name_ sl = n /\
    (exists hn, SkiplistNode.deref hp' (Skiplist.header sl) = Ok hn /\
                SkiplistNode.height hn = K /\
                SkiplistNode.data_entry hn = h) /\
    (forall l, 1 <= l <= K -> level_chain hp' l (Skiplist.header sl) []) /\
    skiplist_wf K pm hp' (Skiplist.header sl) (fun _ => []) /\
    (forall q, q <> Skiplist.header sl ->
       SkiplistNode.nodes hp' !! q = SkiplistNode.nodes hp !! q) /\
    (forall a, a < malloc (SkiplistNode.NewNode_size n K) \/
               Skiplist.header sl <= a ->
       SkiplistNode.cells hp' !! a = SkiplistNode.cells hp !! a).
Proof.
  intros HK Hm.
  destruct (Skiplist_new_runs K malloc hp h n i HK ltac:(lia))
    as (hp' & hn & Hrun & Hd & Hh & He & Hnull & Hnodes & Hcells).
  eexists. exists hp'. split; [exact Hrun|]. cbn.
  split; [reflexivity|]. split; [reflexivity|].
  split; [exists hn; auto|].
  assert (Hlevels : forall l, 1 <= l <= K ->
            level_chain hp' l (malloc (SkiplistNode.NewNode_size n K) + 8 * K) []).
  { intros l Hl. apply level_end. now apply Hnull. }
  split; [exact Hlevels|]. split.
  { split.
    - lia.
    - now exists hn.
    - exact Hlevels.
    - intros l q _ Hq. apply elem_of_nil in Hq. contradiction.
    - split; constructor.
    - intros q Hq. apply elem_of_nil in Hq. contradiction. }
  split; [exact Hnodes | exact Hcells].
Qed.

Lemma skiplist_new_is_empty_witness :
  (1 <= 3 < 2 ^ 16 /\ 0 < answer 976 (SkiplistNode.NewNode_size "s" 3)) /\
  exists sl hp',
    Skiplist_new 3 (answer 976) SkiplistNode.empty_heap 4096 "s" 1
      = Ok (sl, hp') /\
    Skiplist.header sl = 1000 /\
    skiplist_wf 3 abc_pmem hp' (Skiplist.header sl) (fun _ => []).
Proof.
  assert (H1 : 1 <= 3 < 2 ^ 16) by lia.
  assert (H2 : 0 < answer 976 (SkiplistNode.NewNode_size "s" 3))
    by (vm_compute; reflexivity).
  split; [auto|].
  destruct (skiplist_new_is_empty 3 (answer 976) SkiplistNode.empty_heap 4096
              "s" 1 abc_pmem H1 H2)
    as (sl & hp' & Hrun & Hh & _ & _ & _ & Hwf & _).
  exists sl, hp'. split; [exact Hrun|]. split; [exact Hh | exact Hwf].
Defined.

Lemma trapping_init_levels_agree
    (mapped : Z -> bool) (space size K header : Z) (fuel : nat) :
  forall hp i,
    (forall l, i <= l <= K ->
       Trapping.writable mapped space size (SkiplistNode.next_addr header l)
       = true) ->
    Trapping.Skiplist_init_levels mapped space size fuel K hp header i
    = Skiplist_init_levels fuel K hp header i.
Proof.
  induction fuel as [|fuel IH]; intros hp i Hw; [reflexivity|].
  cbn [Trapping.Skiplist_init_levels Skiplist_init_levels].
  destruct (Z.leb_spec i K) as [Hle|Hgt]; [|reflexivity].
  rewrite Hw by lia.
  destruct (SkiplistNode.RelaxedSetNext hp header i nullptr) as [hp1| |];
    cbn; try reflexivity.
  apply IH. intros l Hl. apply Hw. lia.
Qed.

Lemma trapping_init_levels_fault
    (mapped : Z -> bool) (space size K header : Z) (fuel : nat) :
  forall hp i,
    1 <= i -> (Z.to_nat (K + 1 - i) < fuel)%nat ->
    (exists l, i <= l <= K /\
       Trapping.writable mapped space size (SkiplistNode.next_addr header l)
       = false) ->
    Trapping.Skiplist_init_levels mapped space size fuel K hp header i = Fault.
Proof.
  induction fuel as [|fuel IH]; intros hp i Hi Hfuel (l & Hl & Hbad); [lia|].
  cbn [Trapping.Skiplist_init_levels].
  destruct (Z.leb_spec i K) as [Hle|Hgt]; [|lia].
  destruct (Trapping.writable mapped space size
              (SkiplistNode.next_addr header i)) eqn:Hw; [|reflexivity].
  unfold SkiplistNode.RelaxedSetNext, SkiplistNode.SetNext.
  destruct (Z.ltb_spec 0 i); [|lia]. cbn.
  apply IH; [lia | lia |].
  exists l. split; [|exact Hbad].
  destruct (Z.eq_dec l i) as [->|Hne]; [congruence | lia].
Qed.

(** Where every store of the constructor reaches memory, the checked run
    and [Skiplist_new] agree. *)
Lemma trapping_skiplist_new_agrees
    (mapped : Z -> bool) (K : Z) (malloc : Z -> Z) (hp : SkiplistNode.Heap)
    (h : Z) (n : string) (i : Z) :
  let size := SkiplistNode.NewNode_size n (u16 K) in
  let space := malloc size in
  let node := space + 8 * u16 K in
  (node <> nullptr -> Trapping.writable mapped space size node = true) ->
  (forall l, 1 <= l <= K ->
     Trapping.writable mapped space size (SkiplistNode.next_addr node l)
     = true) ->
  Trapping.Skiplist_new mapped K malloc hp h n i = Skiplist_new K malloc hp h n i.
Proof.
  intros size space node Hnode Hcells.
  assert (Hnew : Trapping.NewNode mapped malloc hp n h (u16 K)
                 = Ok (SkiplistNode.NewNode malloc hp n h (u16 K))).
  { unfold Trapping.NewNode, SkiplistNode.NewNode. cbv zeta.
    fold size. fold space. fold node.
    destruct (Z.eqb_spec node nullptr) as [E|E]; [reflexivity|].
    rewrite (Hnode E). reflexivity. }
  assert (Hfst : fst (SkiplistNode.NewNode malloc hp n h (u16 K)) = node).
  { unfold SkiplistNode.NewNode. cbv zeta. fold size. fold space. fold node.
    destruct (node =? nullptr); reflexivity. }
  unfold Trapping.Skiplist_new, Skiplist_new. cbv zeta.
  rewrite Hnew. cbn [mbind result_bind]. fold size. fold space.
  rewrite trapping_init_levels_agree; [reflexivity|].
  rewrite Hfst. exact Hcells.
Qed.



(** ** Chains of a level *)

Lemma level_chain_functional hp l p cs :
  level_chain hp l p cs -> forall cs', level_chain hp l p cs' -> cs = cs'.
Proof.
  induction 1 as [p Hn | p q cs Hn Hq Hc IH]; intros cs' H';
    inversion H' as [p' Hn' | p' q' cs'' Hn' Hq' Hc']; subst.
  - reflexivity.
  - rewrite Hn in Hn'. injection Hn' as <-. contradiction.
  - rewrite Hn in Hn'. injection Hn' as ->. contradiction.
  - rewrite Hn in Hn'. injection Hn' as <-. f_equal. now apply IH.
Qed.

(** A chain that ends at null never comes back to a node. *)
Lemma level_chain_no_revisit hp l p cs :
  level_chain hp l p cs -> (p ∉ cs) /\ NoDup cs.
Proof.
  assert (Hnot : forall p cs, level_chain hp l p cs -> p ∉ cs).
  { intros p0 cs0 Hc Hin.
    apply list_elem_of_split in Hin as (e1 & e2 & He). subst cs0.
    pose proof (level_chain_suffix hp l e1 p0 p0 e2 Hc) as Hs.
    pose proof (level_chain_functional hp l p0 _ Hc _ Hs) as Heq.
    apply (f_equal length) in Heq. rewrite length_app in Heq. cbn in Heq. lia. }
  intros Hc. split; [now apply Hnot|].
  induction Hc as [p Hn | p q cs Hn Hq Hc IH]; constructor; auto.
Qed.

Lemma level_chain_frame hp hp' l :
  forall cs p,
    (forall q, q ∈ p :: cs ->
       SkiplistNode.Next hp' q l = SkiplistNode.Next hp q l) ->
    level_chain hp l p cs -> level_chain hp' l p cs.
Proof.
  induction cs as [|c cs IH]; intros p Hsame Hc;
    inversion Hc as [p' Hn | p' q' cs' Hn Hq Hrest]; subst.
  - apply level_end. rewrite Hsame; [exact Hn | apply elem_of_cons; now left].
  - apply level_link; [|exact Hq|].
    + rewrite Hsame; [exact Hn | apply elem_of_cons; now left].
    + apply IH; [|exact Hrest]. intros q Hin. apply Hsame.
      apply elem_of_cons. now right.
Qed.

Lemma level_chain_window hp l c1 :
  forall hd c2,
    level_chain hp l hd (c1 ++ c2) ->
    SkiplistNode.Next hp (default hd (last c1)) l
      = Ok (default nullptr (head c2)).
Proof.
  induction c1 as [|x c1 IH]; intros hd c2 Hc; cbn in Hc.
  - inversion Hc; subst; assumption.
  - inversion Hc as [|p' q' cs' Hn Hq Hrest]; subst.
    replace (default hd (last (x :: c1))) with (default x (last c1))
      by (rewrite last_cons; now destruct (last c1)).
    now apply IH.
Qed.

Lemma Next_other_cell (c : gmap Z Z) (m : gmap Z SkiplistNode.t) a x q l :
  q <> a ->
  SkiplistNode.Next
    {| SkiplistNode.cells := <[SkiplistNode.next_addr a l := x]> c;
       SkiplistNode.nodes := m |} q l
  = SkiplistNode.Next {| SkiplistNode.cells := c; SkiplistNode.nodes := m |} q l.
Proof.
  intros Hne. unfold SkiplistNode.Next. cbn.
  rewrite lookup_insert_ne; [reflexivity|].
  unfold SkiplistNode.next_addr. lia.
Qed.

Lemma Next_this_cell (c : gmap Z Z) (m : gmap Z SkiplistNode.t) a x l :
  SkiplistNode.Next
    {| SkiplistNode.cells := <[SkiplistNode.next_addr a l := x]> c;
       SkiplistNode.nodes := m |} a l = Ok x.
Proof. unfold SkiplistNode.Next. cbn. now rewrite lookup_insert_eq. Qed.

Section Link.
Variables (hp : SkiplistNode.Heap) (l new prev nxt : Z).
Variable c2 : list Z.
Hypothesis Hnew : new <> nullptr.
Hypothesis Hnxt : nxt = default nullptr (head c2).

Lemma linked_chain :
  forall c1 hd,
    level_chain hp l hd (c1 ++ c2) ->
    prev = default hd (last c1) ->
    new <> hd -> new ∉ c1 ++ c2 ->
    level_chain (linked hp l new prev nxt) l hd (c1 ++ new :: c2).
Proof.
  assert (Hhp : hp = {| SkiplistNode.cells := SkiplistNode.cells hp;
                        SkiplistNode.nodes := SkiplistNode.nodes hp |})
    by now destruct hp.
  induction c1 as [|x c1 IH]; intros hd Hc Hprev Hhd Hnotin.
  - cbn in *. subst prev.
    destruct (level_chain_no_revisit hp l hd c2 Hc) as [Hhdnot _].
    apply level_link; [apply Next_this_cell | exact Hnew |].
    assert (Hkeep : forall q, q ∈ c2 ->
              SkiplistNode.Next (linked hp l new hd nxt) q l
              = SkiplistNode.Next hp q l).
    { intros q Hq. unfold linked.
      rewrite Next_other_cell by (intros ->; contradiction).
      rewrite Next_other_cell by (intros ->; contradiction).
      now rewrite <- Hhp. }
    assert (Hnewnext : SkiplistNode.Next (linked hp l new hd nxt) new l
                       = Ok nxt).
    { unfold linked. rewrite Next_other_cell by exact Hhd.
      apply Next_this_cell. }
    inversion Hc as [p' Hn | p' q' cs' Hn Hq Hrest]; subst.
    + apply level_end. exact Hnewnext.
    + apply level_link; [exact Hnewnext | exact Hq |].
      apply (level_chain_frame hp); [|exact Hrest].
      intros q Hin. apply Hkeep. exact Hin.
  - cbn in Hc. inversion Hc as [|p' q' cs' Hn Hq Hrest]; subst.
    destruct (level_chain_no_revisit hp l hd _ Hc) as [Hhdnot _].
    assert (Hx : default hd (last (x :: c1)) = default x (last c1))
      by (rewrite last_cons; now destruct (last c1)).
    assert (Hprevin : default x (last c1) ∈ x :: c1 ++ c2).
    { destruct (last c1) as [y|] eqn:Hl; cbn.
      - apply last_Some in Hl as [l' ->]. apply elem_of_cons. right.
        rewrite <- app_assoc. apply elem_of_middle.
      - apply elem_of_cons. now left. }
    cbn. apply level_link; [|exact Hq|].
    + unfold linked.
      rewrite Next_other_cell.
      * rewrite Next_other_cell by (intros ->; contradiction).
        rewrite <- Hhp. exact Hn.
      * rewrite Hx. intros ->. contradiction.
    + apply IH; [exact Hrest | now rewrite <- Hx | |].
      * intros ->. apply Hnotin. apply elem_of_cons. now left.
      * intros Hin. apply Hnotin. apply elem_of_cons. now right.
Qed.
End Link.

(** X11. Publishing a node at a level that the node and the nodes of the
    chain all reach ([l] is at most their heights, so that each cell
    touched lies in the pointer array of its node): after
    [new->SetNext(l, next)] the [prev->CASNext(l, next, new)] of the window
    found by the splice succeeds, and the chain of the level, which was
    [c1 ++ c2] with [prev] the last node of [c1] and [next] the first of
    [c2], becomes [c1 ++ new :: c2]; the two cells [next[-l]] of [new] and
    of [prev] are the only ones that change.  With any other expected
    pointer the compare-and-swap returns [false] and changes nothing. *)
Theorem link_inserts_node
    (hp : SkiplistNode.Heap) (l hd new : Z) (c1 c2 : list Z) :
  0 < l ->
  has_level hp l new ->
  Forall (has_level hp l) (hd :: c1 ++ c2) ->
  level_chain hp l hd (c1 ++ c2) ->
  new <> nullptr -> new <> hd -> new ∉ c1 ++ c2 ->
  let prev := default hd (last c1) in
  let nxt := default nullptr (head c2) in
  exists hp1 hp2,
    SkiplistNode.SetNext hp new l nxt = Ok hp1 /\
    level_chain hp1 l hd (c1 ++ c2) /\
    SkiplistNode.CASNext hp1 prev l nxt new = Ok (true, hp2) /\
    level_chain hp2 l hd (c1 ++ new :: c2) /\
    (forall a, a <> SkiplistNode.next_addr new l ->
               a <> SkiplistNode.next_addr prev l ->
       SkiplistNode.cells hp2 !! a = SkiplistNode.cells hp !! a) /\
    (forall expected, expected <> nxt ->
       SkiplistNode.CASNext hp1 prev l expected new = Ok (false, hp1)).
Proof.
  intros Hl _ _ Hc Hnew Hhd Hnotin prev nxt.
  assert (Hhp : hp = {| SkiplistNode.cells := SkiplistNode.cells hp;
                        SkiplistNode.nodes := SkiplistNode.nodes hp |})
    by now destruct hp.
  destruct (level_chain_no_revisit hp l hd _ Hc) as [Hhdnot _].
  unfold SkiplistNode.SetNext, SkiplistNode.CASNext.
  destruct (Z.ltb_spec 0 l); [|lia].
  eexists. eexists. split; [reflexivity|].
  assert (Hkeep : forall q, q ∈ hd :: c1 ++ c2 ->
            SkiplistNode.Next
              {| SkiplistNode.cells :=
                   <[SkiplistNode.next_addr new l := nxt]> (SkiplistNode.cells hp);
                 SkiplistNode.nodes := SkiplistNode.nodes hp |} q l
            = SkiplistNode.Next hp q l).
  { intros q Hq. rewrite Next_other_cell.
    - now rewrite <- Hhp.
    - intros ->. apply elem_of_cons in Hq as [Hq|Hq]; [now apply Hhd|].
      now apply Hnotin. }
  assert (Hprevin : prev ∈ hd :: c1 ++ c2).
  { subst prev. destruct (last c1) as [y|] eqn:Hlast; cbn.
    - apply last_Some in Hlast as [l' ->]. apply elem_of_cons. right.
      rewrite <- app_assoc. apply elem_of_middle.
    - apply elem_of_cons. now left. }
  assert (Hwin : SkiplistNode.cells
                   {| SkiplistNode.cells :=
                        <[SkiplistNode.next_addr new l := nxt]>
                          (SkiplistNode.cells hp);
                      SkiplistNode.nodes := SkiplistNode.nodes hp |}
                 !! SkiplistNode.next_addr prev l = Some nxt).
  { pose proof (Hkeep prev Hprevin) as Hk.
    pose proof (level_chain_window hp l c1 hd c2 Hc) as Hw.
    fold prev nxt in Hw. rewrite Hw in Hk.
    unfold SkiplistNode.Next in Hk.
    destruct (_ !! SkiplistNode.next_addr prev l) as [x|]; [|discriminate Hk].
    cbn in Hk. congruence. }
  split.
  { apply (level_chain_frame hp); [exact Hkeep | exact Hc]. }
  rewrite Hwin. cbn. rewrite Z.eqb_refl.
  split; [reflexivity|]. split.
  { cbn. apply (linked_chain hp l new prev nxt c2 Hnew eq_refl c1 hd Hc eq_refl
                  Hhd Hnotin). }
  split.
  { intros a Ha1 Ha2. cbn.
    rewrite lookup_insert_ne by (apply not_eq_sym; exact Ha2).
    rewrite lookup_insert_ne by (apply not_eq_sym; exact Ha1).
    reflexivity. }
  intros expected Hne.
  destruct (Z.eqb_spec nxt expected) as [->|_]; [contradiction | reflexivity].
Qed.

Lemma aceg_with_d_level1_chain :
  level_chain aceg_heap_with_d 1 1000 ([2000; 3000; 4000] ++ [5000]).
Proof.
  cbn [app].
  repeat (eapply level_link; [vm_compute; reflexivity | discriminate |]).
  apply level_end. vm_compute; reflexivity.
Qed.

Lemma aceg_with_d_levels :
  has_level aceg_heap_with_d 1 4500 /\
  Forall (has_level aceg_heap_with_d 1) (1000 :: [2000; 3000; 4000] ++ [5000]).
Proof.
  split; [|cbn [app]; repeat constructor];
    (eexists; split; [vm_compute; reflexivity | cbn; lia]).
Qed.

Lemma link_inserts_node_witness :
  (0 < 1 /\
   has_level aceg_heap_with_d 1 4500 /\
   Forall (has_level aceg_heap_with_d 1) (1000 :: [2000; 3000; 4000] ++ [5000]) /\
   level_chain aceg_heap_with_d 1 1000 ([2000; 3000; 4000] ++ [5000]) /\
   4500 <> nullptr /\ 4500 <> 1000 /\
   4500 ∉ [2000; 3000; 4000] ++ [5000]) /\
  exists hp1 hp2,
    SkiplistNode.SetNext aceg_heap_with_d 4500 1 5000 = Ok hp1 /\
    SkiplistNode.CASNext hp1 4000 1 5000 4500 = Ok (true, hp2) /\
    level_chain hp2 1 1000 ([2000; 3000; 4000] ++ 4500 :: [5000]).
Proof.
  assert (H1 : 0 < 1) by lia.
  destruct aceg_with_d_levels as [Hn Hf].
  pose proof aceg_with_d_level1_chain as H2.
  assert (H3 : 4500 <> nullptr) by discriminate.
  assert (H4 : 4500 <> 1000) by discriminate.
  assert (H5 : 4500 ∉ [2000; 3000; 4000] ++ [5000]).
  { cbn. rewrite !elem_of_cons, elem_of_nil. intros [H|[H|[H|[H|[]]]]]; discriminate. }
  split; [auto 10|].
  destruct (link_inserts_node aceg_heap_with_d 1 1000 4500
              [2000; 3000; 4000] [5000] H1 Hn Hf H2 H3 H4 H5)
    as (hp1 & hp2 & Hs & _ & Hcas & Hc & _).
  exists hp1, hp2. auto.
Defined.

(** ** Destruction of a skip list *)

Lemma lookup_drop_cells (n : nat) (node : Z) :
  forall (c : gmap Z Z) (a : Z),
    (forall i, 1 <= i <= Z.of_nat n -> a <> SkiplistNode.next_addr node i) ->
    drop_cells n node c !! a = c !! a.
Proof.
  induction n as [|n IH]; intros c a Ha; [reflexivity|].
  cbn [drop_cells]. rewrite IH by (intros i Hi; apply Ha; lia).
  apply lookup_delete_ne. apply not_eq_sym, Ha. lia.
Qed.

Lemma StronglySorted_transport {A : Type} (R R' : A -> A -> Prop) (l : list A) :
  (forall a b, a ∈ l -> R a b -> R' a b) ->
  StronglySorted R l -> StronglySorted R' l.
Proof.
  induction l as [|x l IH]; intros Himp Hs; [constructor|].
  apply StronglySorted_inv in Hs as [Hs Hall]. constructor.
  - apply IH; [|exact Hs]. intros a b Ha. apply Himp. apply elem_of_cons. now right.
  - eapply Forall_impl; [exact Hall|]. intros b. apply Himp.
    apply elem_of_cons. now left.
Qed.

Lemma block_start_deref hp q n :
  SkiplistNode.deref hp q = Ok n ->
  block_start hp q = q - SkiplistNode.height n * 8.
Proof. intros H. unfold block_start. now rewrite H. Qed.

Lemma DeleteNode_keeps_others hp cur n q :
  SkiplistNode.deref hp cur = Ok n -> q <> cur ->
  SkiplistNode.deref
    {| SkiplistNode.cells :=
         drop_cells (Z.to_nat (SkiplistNode.height n)) cur (SkiplistNode.cells hp);
       SkiplistNode.nodes := delete cur (SkiplistNode.nodes hp) |} q
  = SkiplistNode.deref hp q.
Proof.
  intros _ Hne. unfold SkiplistNode.deref. cbn.
  now rewrite lookup_delete_ne by (apply not_eq_sym; exact Hne).
Qed.

Lemma outside_not_same hp a q : outside_block hp a q -> q <> a.
Proof. intros (n & _ & Hh & Hout) ->. lia. Qed.

(** The loop of the destructor along the chain of level 1. *)
Lemma Skiplist_delete_loop_chain :
  forall cs hp cur fuel,
    cur <> nullptr ->
    level_chain hp 1 cur cs ->
    Forall (is_node hp) (cur :: cs) ->
    StronglySorted (outside_block hp) (cur :: cs) ->
    (S (length cs) < fuel)%nat ->
    exists hp',
      Skiplist_delete_loop fuel hp cur
        = Ok (map (block_start hp) (cur :: cs), hp') /\
      (forall q, q ∈ cur :: cs -> SkiplistNode.nodes hp' !! q = None) /\
      (forall q, q ∉ cur :: cs ->
         SkiplistNode.nodes hp' !! q = SkiplistNode.nodes hp !! q).
Proof.
  induction cs as [|c cs IH]; intros hp cur fuel Hcur Hchain Hnodes Hout Hfuel.
  - inversion Hchain as [p Hnext|]; subst.
    destruct fuel as [|[|fuel]]; [cbn in Hfuel; lia | cbn in Hfuel; lia |].
    apply Forall_cons in Hnodes as [(n & Hn & Hh) _].
    cbn [Skiplist_delete_loop].
    destruct (Z.eqb_spec cur nullptr); [contradiction|].
    rewrite Hnext. cbn. unfold DeleteNode. rewrite Hn. cbn.
    eexists. split; [now rewrite (block_start_deref hp cur n Hn)|].
    cbn. split.
    + intros q Hq. apply elem_of_cons in Hq as [->|Hq].
      * apply lookup_delete_eq.
      * apply elem_of_nil in Hq. contradiction.
    + intros q Hq. apply lookup_delete_ne. intros ->. apply Hq.
      apply elem_of_cons. now left.
  - inversion Hchain as [|p q' cs' Hnext Hc Hrest]; subst.
    destruct fuel as [|fuel]; [cbn in Hfuel; lia|].
    apply Forall_cons in Hnodes as [(n & Hn & Hh) Hnodes].
    apply StronglySorted_inv in Hout as [Hout Hcurout].
    destruct (level_chain_no_revisit hp 1 cur _ Hchain) as [Hnotin _].
    cbn [Skiplist_delete_loop].
    destruct (Z.eqb_spec cur nullptr); [contradiction|].
    rewrite Hnext. cbn. unfold DeleteNode. rewrite Hn. cbn.
    set (hp1 := {| SkiplistNode.cells :=
                     drop_cells (Z.to_nat (SkiplistNode.height n)) cur
                       (SkiplistNode.cells hp);
                   SkiplistNode.nodes := delete cur (SkiplistNode.nodes hp) |}).
    assert (Hne : forall q, q ∈ c :: cs -> q <> cur).
    { intros q Hq. rewrite Forall_forall in Hcurout.
      exact (outside_not_same hp cur q (Hcurout q Hq)). }
    assert (Hderef : forall q, q ∈ c :: cs ->
              SkiplistNode.deref hp1 q = SkiplistNode.deref hp q).
    { intros q Hq. apply (DeleteNode_keeps_others hp cur n q Hn). now apply Hne. }
    assert (Hnext1 : forall q, q ∈ c :: cs ->
              SkiplistNode.Next hp1 q 1 = SkiplistNode.Next hp q 1).
    { intros q Hq. unfold SkiplistNode.Next. cbn.
      rewrite lookup_drop_cells; [reflexivity|].
      intros i Hi. rewrite Forall_forall in Hcurout.
      destruct (Hcurout q Hq) as (n' & Hn' & _ & Hside).
      rewrite Hn in Hn'. injection Hn' as <-.
      unfold SkiplistNode.next_addr. lia. }
    destruct (IH hp1 c fuel) as (hp' & Hrun & Hgone & Hkept).
    + exact Hc.
    + apply (level_chain_frame hp); [exact Hnext1 | exact Hrest].
    + apply Forall_forall. intros q Hq. rewrite Forall_forall in Hnodes.
      destruct (Hnodes q Hq) as (nq & Hnq & Hhq). exists nq.
      split; [now rewrite Hderef | exact Hhq].
    + eapply StronglySorted_transport; [|exact Hout].
      intros a b Ha (na & Hna & Hha & Hside). exists na.
      split; [now rewrite Hderef | auto].
    + cbn in Hfuel. lia.
    + assert (Hmap : map (block_start hp1) (c :: cs)
                     = map (block_start hp) (c :: cs)).
      { apply map_ext_in. intros q Hq. unfold block_start.
        rewrite Hderef; [reflexivity|]. now apply list_elem_of_In. }
      rewrite Hmap in Hrun. rewrite Hrun.
      change (map (block_start hp) (cur :: c :: cs))
        with (block_start hp cur :: map (block_start hp) (c :: cs)).
      rewrite (block_start_deref hp cur n Hn).
      exists hp'. split; [reflexivity|].
      split.
      * intros q Hq. apply elem_of_cons in Hq as [->|Hq]; [|now apply Hgone].
        rewrite Hkept by exact Hnotin. apply lookup_delete_eq.
      * intros q Hq. rewrite Hkept.
        -- apply lookup_delete_ne. intros ->. apply Hq. apply elem_of_cons. now left.
        -- intros Hin. apply Hq. apply elem_of_cons. now right.
Qed.

(** X12. On a stable skip list whose nodes lie in blocks that do not
    overlap, the destructor terminates without reading a freed node: it
    hands to [free] the block of the header and of every node of level 1,
    each node once and in chain order, and leaves every other node on the
    heap. *)
Theorem skiplist_delete_frees_every_node
    (hp : SkiplistNode.Heap) (sl : Skiplist.t) (cs : list Z) (fuel : nat) :
  Skiplist.header sl <> nullptr ->
  level_chain hp 1 (Skiplist.header sl) cs ->
  Forall (is_node hp) (Skiplist.header sl :: cs) ->
  StronglySorted (outside_block hp) (Skiplist.header sl :: cs) ->
  (S (length cs) < fuel)%nat ->
  exists hp',
    Skiplist_delete fuel hp sl
      = Ok (map (block_start hp) (Skiplist.header sl :: cs), hp') /\
    NoDup (Skiplist.header sl :: cs) /\
    (forall q, q ∈ Skiplist.header sl :: cs ->
       SkiplistNode.deref hp' q = Fault) /\
    (forall q, q ∉ Skiplist.header sl :: cs ->
       SkiplistNode.nodes hp' !! q = SkiplistNode.nodes hp !! q).
Proof.
  intros Hh Hchain Hnodes Hout Hfuel.
  destruct (Skiplist_delete_loop_chain cs hp (Skiplist.header sl) fuel
              Hh Hchain Hnodes Hout Hfuel) as (hp' & Hrun & Hgone & Hkept).
  exists hp'. unfold Skiplist_delete. fold (Skiplist.header sl).
  destruct (Z.eqb_spec (Skiplist.header sl) nullptr); [contradiction|].
  split; [exact Hrun|]. split.
  { destruct (level_chain_no_revisit hp 1 _ cs Hchain) as [Hnot Hnd].
    now constructor. }
  split; [|exact Hkept].
  intros q Hq. unfold SkiplistNode.deref.
  destruct (q =? nullptr); [reflexivity|]. now rewrite (Hgone q Hq).
Qed.

Lemma aceg_nodes_apart :
  Forall (is_node (aceg_heap EmptyString)) [1000; 2000; 3000; 4000; 5000] /\
  StronglySorted (outside_block (aceg_heap EmptyString))
    [1000; 2000; 3000; 4000; 5000].
Proof.
  split.
  - repeat constructor; (eexists; split; [vm_compute; reflexivity | cbn; lia]).
  - repeat constructor;
      (eexists; split; [vm_compute; reflexivity | split; [cbn; lia | right; lia]]).
Qed.

Lemma skiplist_delete_frees_every_node_witness :
  (Skiplist.header demo_list <> nullptr /\
   level_chain (aceg_heap EmptyString) 1 (Skiplist.header demo_list)
     [2000; 3000; 4000; 5000] /\
   Forall (is_node (aceg_heap EmptyString))
     (Skiplist.header demo_list :: [2000; 3000; 4000; 5000]) /\
   StronglySorted (outside_block (aceg_heap EmptyString))
     (Skiplist.header demo_list :: [2000; 3000; 4000; 5000]) /\
   (S (length [2000; 3000; 4000; 5000]) < 6)%nat) /\
  exists hp',
    Skiplist_delete 6 (aceg_heap EmptyString) demo_list
      = Ok ([976; 1992; 2976; 3992; 4984], hp').
Proof.
  assert (H1 : Skiplist.header demo_list <> nullptr) by discriminate.
  pose proof aceg_level1_chain as H2.
  destruct aceg_nodes_apart as [H3 H4].
  assert (H5 : (S (length [2000; 3000; 4000; 5000]) < 6)%nat) by (cbn; lia).
  split; [auto 10|].
  destruct (skiplist_delete_frees_every_node (aceg_heap EmptyString) demo_list
              [2000; 3000; 4000; 5000] 6 H1 H2 H3 H4 H5) as (hp' & Hrun & _).
  exists hp'. exact Hrun.
Defined.

(** ** More on [Recompute] *)

Lemma set_nexts_same sp l x :
  Skiplist.nexts sp !! l = Some x -> Skiplist.set_nexts sp l x = sp.
Proof.
  intros H. destruct sp as [n pv pd nd]. unfold Skiplist.set_nexts. cbn in *.
  f_equal. now apply insert_id.
Qed.

(** X13. Running [Recompute] again with the same key at the same level of a
    stable skip list returns the splice it is given: the window it found is
    a fixed point. *)
Theorem recompute_is_idempotent
    (kMaxHeight : Z) (pm : PMem) (hp : SkiplistNode.Heap) (sp : Skiplist.Splice)
    (key : Slice) (l p : Z) (cs : list Z) (fuel : nat) (sp' : Skiplist.Splice) :
  0 <= l <= kMaxHeight ->
  Skiplist.prevs sp !! l = Some p ->
  level_chain hp l p cs ->
  Forall (fun n => exists kn, SkiplistNode.Key pm hp n = Ok kn) cs ->
  (length cs < fuel)%nat ->
  Skiplist.Recompute kMaxHeight fuel pm hp sp key l = Ok sp' ->
  Skiplist.Recompute kMaxHeight fuel pm hp sp' key l = Ok sp'.
Proof.
  intros Hl Hp Hchain Hkeys Hfuel Hrun.
  destruct (Recompute_scan kMaxHeight pm hp key l Hl cs p sp fuel
              Hp Hchain Hkeys Hfuel)
    as (passed & rest & Hcs & Hpassed & Hhead & Hwin & Hrun1).
  rewrite Hrun in Hrun1. injection Hrun1 as ->.
  set (p' := default p (last passed)) in *.
  set (n' := default nullptr (head rest)) in *.
  set (sp1 := Skiplist.set_nexts (Skiplist.set_prevs sp l p') l n').
  assert (Hp1 : Skiplist.prevs sp1 !! l = Some p').
  { subst sp1. cbn. apply lookup_insert_eq. }
  assert (Hn1 : Skiplist.nexts sp1 !! l = Some n').
  { subst sp1. cbn. apply lookup_insert_eq. }
  assert (Hchain1 : level_chain hp l p' rest).
  { subst p'. destruct (last passed) as [x|] eqn:Hlast; cbn.
    - apply last_Some in Hlast as [front ->].
      apply (level_chain_suffix hp l front p). rewrite Hcs in Hchain.
      now rewrite <- app_assoc in Hchain.
    - apply last_None in Hlast. subst passed. now rewrite Hcs in Hchain. }
  assert (Hkeys1 : Forall (fun n => exists kn, SkiplistNode.Key pm hp n = Ok kn) rest).
  { rewrite Hcs in Hkeys. now apply Forall_app in Hkeys as [_ ?]. }
  assert (Hfuel1 : (length rest < fuel)%nat).
  { rewrite Hcs, length_app in Hfuel. lia. }
  destruct (Recompute_scan kMaxHeight pm hp key l Hl rest p' sp1 fuel
              Hp1 Hchain1 Hkeys1 Hfuel1)
    as (passed2 & rest2 & Hrest & Hpassed2 & _ & _ & Hrun2).
  assert (Hnil : passed2 = []).
  { destruct passed2 as [|x passed2]; [reflexivity|]. exfalso.
    rewrite Hrest in Hhead. cbn in Hhead.
    apply Forall_cons in Hpassed2 as [Hx _].
    exact (not_below_and_below pm hp key x Hx Hhead). }
  subst passed2. cbn in Hrest. subst rest2. cbn in Hrun2.
  rewrite Hrun2. fold n'.
  rewrite (set_prevs_same sp1 l p' Hp1).
  now rewrite (set_nexts_same sp1 l n' Hn1).
Qed.

Lemma recompute_is_idempotent_witness :
  (0 <= 1 <= 3 /\
   Skiplist.prevs header_splice !! 1 = Some 1000 /\
   level_chain (aceg_heap EmptyString) 1 1000 [2000; 3000; 4000; 5000] /\
   Forall (fun n => exists kn,
             SkiplistNode.Key (aceg_pmem EmptyString) (aceg_heap EmptyString) n
             = Ok kn) [2000; 3000; 4000; 5000] /\
   (length [2000; 3000; 4000; 5000] < 5)%nat) /\
  exists sp',
    Skiplist.Recompute 3 5 (aceg_pmem EmptyString) (aceg_heap EmptyString)
      header_splice "f" 1 = Ok sp' /\
    Skiplist.Recompute 3 5 (aceg_pmem EmptyString) (aceg_heap EmptyString)
      sp' "f" 1 = Ok sp'.
Proof.
  assert (H1 : 0 <= 1 <= 3) by lia.
  assert (H2 : Skiplist.prevs header_splice !! 1 = Some 1000)
    by (vm_compute; reflexivity).
  pose proof aceg_level1_chain as H3.
  pose proof (proj1 aceg_level1_ascending) as H4.
  assert (H5 : (length [2000; 3000; 4000; 5000] < 5)%nat) by (cbn; lia).
  split; [auto 10|].
  destruct (Skiplist.Recompute 3 5 (aceg_pmem EmptyString)
              (aceg_heap EmptyString) header_splice "f" 1) as [sp'| |] eqn:Hrun.
  - exists sp'. split; [reflexivity|].
    exact (recompute_is_idempotent 3 (aceg_pmem EmptyString)
             (aceg_heap EmptyString) header_splice "f" 1 1000
             [2000; 3000; 4000; 5000] 5 sp' H1 H2 H3 H4 H5 Hrun).
  - vm_compute in Hrun. discriminate Hrun.
  - vm_compute in Hrun. discriminate Hrun.
Defined.

(** X14. Where the pointers of a level never reach null nor a node whose key
    is greater than or equal to the target, as on a cycle of smaller keys,
    [Recompute] keeps advancing [prevs[l]]: no amount of fuel makes it
    return. *)
Theorem recompute_never_returns_on_cycle
    (kMaxHeight : Z) (pm : PMem) (hp : SkiplistNode.Heap) (key : Slice) (l : Z)
    (P : Z -> Prop) :
  0 <= l <= kMaxHeight ->
  (forall q, P q ->
     exists q', SkiplistNode.Next hp q l = Ok q' /\ q' <> nullptr /\
                below pm hp key q' /\ P q') ->
  forall (fuel : nat) (sp : Skiplist.Splice) (p : Z),
    Skiplist.prevs sp !! l = Some p -> P p ->
    Skiplist.Recompute kMaxHeight fuel pm hp sp key l = OutOfFuel.
Proof.
  intros Hl Hstep.
  induction fuel as [|fuel IH]; intros sp p Hp HP; [reflexivity|].
  destruct (Hstep p HP) as (q & Hnext & Hq & (kq & Hkq & Hlt) & HPq).
  cbn [Skiplist.Recompute].
  rewrite (cell_in_range _ _ _ _ Hl Hp). cbn. rewrite Hnext. cbn.
  destruct (Z.eqb_spec q nullptr); [contradiction|].
  rewrite Hkq. cbn.
  destruct (Z.ltb_spec 0 (Slice_compare key kq)); [|lia].
  apply (IH _ q); [cbn; apply lookup_insert_eq | exact HPq].
Qed.

Lemma recompute_never_returns_on_cycle_witness :
  (0 <= 1 <= 3 /\
   (forall q, q = 2000 ->
      exists q', SkiplistNode.Next self_loop_heap q 1 = Ok q' /\
                 q' <> nullptr /\ below ∅ self_loop_heap "f" q' /\ q' = 2000) /\
   Skiplist.prevs self_loop_splice !! 1 = Some 2000) /\
  Skiplist.Recompute 3 100 ∅ self_loop_heap self_loop_splice "f" 1 = OutOfFuel.
Proof.
  assert (H1 : 0 <= 1 <= 3) by lia.
  assert (H2 : forall q, q = 2000 ->
      exists q', SkiplistNode.Next self_loop_heap q 1 = Ok q' /\
                 q' <> nullptr /\ below ∅ self_loop_heap "f" q' /\ q' = 2000).
  { intros q ->. exists 2000. split; [vm_compute; reflexivity|].
    split; [discriminate|]. split; [|reflexivity].
    eexists. split; vm_compute; reflexivity. }
  assert (H3 : Skiplist.prevs self_loop_splice !! 1 = Some 2000)
    by (vm_compute; reflexivity).
  split; [auto|].
  exact (recompute_never_returns_on_cycle 3 ∅ self_loop_heap "f" 1
           (fun q => q = 2000) H1 H2 100 self_loop_splice 2000 H3 eq_refl).
Defined.

(** ** Allocation and release of a node *)

Lemma drop_cells_removes (n : nat) (node : Z) :
  forall (c : gmap Z Z) (l : Z),
    1 <= l <= Z.of_nat n ->
    drop_cells n node c !! SkiplistNode.next_addr node l = None.
Proof.
  induction n as [|n IH]; intros c l Hl; [lia|].
  cbn [drop_cells].
  destruct (Z.eq_dec l (Z.of_nat (S n))) as [->|Hne].
  - rewrite lookup_drop_cells.
    + apply lookup_delete_eq.
    + intros i Hi. unfold SkiplistNode.next_addr. lia.
  - apply IH. lia.
Qed.

(** X15. [DeleteNode] on a node made by [NewNode] hands to [free] exactly
    the pointer [malloc] returned, whatever the height and the key: the
    height kept in the node is what leads back from the node base to the
    start of the block.  After it the node and its pointer cells are no
    longer readable, and the node headers are those from before the
    allocation. *)
Theorem delete_frees_what_new_allocated
    (malloc : Z -> Z) (hp : SkiplistNode.Heap) (key : Slice) (entry h : Z) :
  0 <= h < 2 ^ 16 ->
  0 < malloc (SkiplistNode.NewNode_size key h) ->
  let node := fst (SkiplistNode.NewNode malloc hp key entry h) in
  let hp' := snd (SkiplistNode.NewNode malloc hp key entry h) in
  exists hp'',
    DeleteNode hp' node = Ok (malloc (SkiplistNode.NewNode_size key h), hp'') /\
    SkiplistNode.deref hp'' node = Fault /\
    (forall l, 1 <= l <= h -> SkiplistNode.Next hp'' node l = Fault) /\
    (SkiplistNode.nodes hp !! node = None ->
     SkiplistNode.nodes hp'' = SkiplistNode.nodes hp).
Proof.
  intros Hh Hm. cbv zeta.
  rewrite new_node_stores by (unfold nullptr; lia). cbn [fst snd].
  set (space := malloc (SkiplistNode.NewNode_size key h)) in *.
  unfold DeleteNode. rewrite deref_stored by (unfold nullptr; lia).
  assert (Hheight : SkiplistNode.height
            (SkiplistNode.MaybeCacheKey
               {| SkiplistNode.data_entry := entry; SkiplistNode.height := h;
                  SkiplistNode.cached_key_size := 0;
                  SkiplistNode.cached_key := EmptyString |} key) = h).
  { unfold SkiplistNode.MaybeCacheKey.
    destruct (SkiplistNode.caches_key _ _); reflexivity. }
  cbn. rewrite Hheight. eexists. split; [f_equal; f_equal; lia|].
  split.
  { unfold SkiplistNode.deref. cbn.
    destruct (space + 8 * h =? nullptr); [reflexivity|].
    now rewrite lookup_delete_eq. }
  split.
  { intros l Hl. unfold SkiplistNode.Next. cbn.
    rewrite drop_cells_removes by lia. reflexivity. }
  intros Hfree. cbn. rewrite delete_insert_eq. now apply delete_id.
Qed.

Lemma delete_frees_what_new_allocated_witness :
  (0 <= 3 < 2 ^ 16 /\
   0 < answer 2976 (SkiplistNode.NewNode_size "persistent"%string 3)) /\
  exists hp'',
    DeleteNode
      (snd (SkiplistNode.NewNode (answer 2976) SkiplistNode.empty_heap
              "persistent" 77 3))
      (fst (SkiplistNode.NewNode (answer 2976) SkiplistNode.empty_heap
              "persistent" 77 3))
    = Ok (2976, hp'').
Proof.
  assert (H1 : 0 <= 3 < 2 ^ 16) by lia.
  assert (H2 : 0 < answer 2976 (SkiplistNode.NewNode_size "persistent"%string 3))
    by (vm_compute; reflexivity).
  split; [auto|].
  destruct (delete_frees_what_new_allocated (answer 2976)
              SkiplistNode.empty_heap "persistent" 77 3 H1 H2)
    as (hp'' & Hrun & _).
  exists hp''. exact Hrun.
Defined.
